(** * A shallow embedding of [skopt/parameter.py]

    The search-space module of scikit-optimize: the transformers
    ([Identity], [Log], [Log10], [CategoricalEncoder]), the distributions
    ([Real], [Integer], [Categorical]), the grid normalizer [check_grid] and
    the sampler [sample_points].

    Python objects that the code mutates or copies (lists and tuples) live in
    an explicit heap, so that aliasing and mutation are visible; numbers are
    [Z] (for [numbers.Integral]) or [Q] (for floats); the random number
    generators of numpy are streams of raw 53-bit draws indexed by a seed and
    a position.

    The libraries are those the module was written against: numpy >= 1.17 on
    a 64-bit platform, and a scipy 1.x whose [randint] checks only
    [low < high] of its bounds and whose [rv_discrete(values=...)] checks the
    shape and the sum of its weights; [sp_version < (0, 16)] is kept as a
    parameter of [sample_points]. Double rounding and the variates a caller
    passes as [prior] are parameters of the model ([oracle]). *)

From Stdlib Require Import ZArith QArith Qabs String List Lia.
From Stdlib Require Import Reals Lra.
From Stdlib Require Import Sorted.
From Stdlib Require OrderedTypeEx.
Import ListNotations.

Set Warnings "-register-all".

Open Scope Z_scope.

(** ** Python values *)

(** Exceptions raised by the module (and by the libraries it calls). *)
Inductive exc :=
| TypeError
| IndexError
| NameError
| RuntimeError
| ValueError
| AttributeError
| ZeroDivisionError.

(** Transformer objects held by a distribution. *)
Inductive transformer :=
| TIdentity                     (* Identity() *)
| TLog                          (* Log() *)
| TLog10                        (* Log10() *)
| TLabelEncoder                 (* sklearn LabelEncoder, fitted on the categories *)
| TUser (id : nat).             (* a caller supplied TransformerMixin instance *)

(** Frozen scipy random variates held in [self._rvs]. *)
Inductive frozen :=
| RVUniform (loc scale : Q)      (* uniform(loc, scale) *)
| RVRandint (low high : Q)       (* randint(low, high), the bounds as passed *)
| RVDiscrete (pk : list Q)       (* rv_discrete(values=(range(len pk), pk)) *)
| RVUser (id : nat).             (* a caller supplied rv_frozen instance *)

(** Python values.  [VRef l] is a list or tuple object stored at location
    [l] of the heap; [VArray] is a numpy array (never mutated here);
    [VOther] is any other object that is neither a number, a string, a
    sequence nor a [Distribution] ([None], a plain object, ...). *)
Inductive pyval :=
| VInt (z : Z)                   (* numbers.Integral *)
| VFloat (q : Q)                 (* numbers.Real, not Integral *)
| VStr (s : string)
| VRef (l : nat)
| VArray (xs : list pyval)
| VDist (d : dist)
| VOther (id : nat)
with dist :=
| DReal (low high : pyval) (tr : transformer) (rv : frozen)
| DInteger (low high : pyval) (tr : transformer) (rv : frozen)
| DCategorical (categories : list pyval) (tr : transformer) (rv : frozen).

Inductive seqkind := SList | STuple.

(** The heap: location [l] holds the [l]-th allocated list or tuple. *)
Definition heap := list (seqkind * list pyval).

Definition is_number (v : pyval) : bool :=
  match v with VInt _ | VFloat _ => true | _ => false end.

Definition is_str (v : pyval) : bool :=
  match v with VStr _ => true | _ => false end.

(** A [str] without a NUL character. numpy stores such a string unchanged
    in an array of strings; of any other string it drops the trailing NULs. *)
Fixpoint nul_free (s : string) : bool :=
  match s with
  | EmptyString => true
  | String c s' => negb (Ascii.eqb c Ascii.zero) && nul_free s'
  end.

(** A value that [np.asarray] of a sequence of such values stores as it is:
    a NUL-free [str]. *)
Definition plain_str (v : pyval) : bool :=
  match v with VStr s => nul_free s | _ => false end.

Definition is_distribution (v : pyval) : bool :=
  match v with VDist _ => true | _ => false end.

(** [isinstance(v, collections.Sequence)]: lists, tuples and strings;
    numpy arrays are not registered as sequences. *)
Definition is_sequence (v : pyval) : bool :=
  match v with VRef _ | VStr _ => true | _ => false end.

Fixpoint chars (s : string) : list pyval :=
  match s with
  | EmptyString => []
  | String c s' => VStr (String c EmptyString) :: chars s'
  end.

(** The items of an iterable object, as [iter] yields them. *)
Definition py_items (h : heap) (v : pyval) : exc + list pyval :=
  match v with
  | VRef l => match nth_error h l with
              | Some (_, xs) => inr xs
              | None => inl TypeError
              end
  | VStr s => inr (chars s)
  | VArray xs => inr xs
  | _ => inl TypeError
  end.

(** [len(v)] *)
Definition py_len (h : heap) (v : pyval) : exc + nat :=
  match py_items h v with inl e => inl e | inr xs => inr (length xs) end.

(** [v[i]] for a non-negative index. *)
Definition py_getitem (h : heap) (v : pyval) (i : nat) : exc + pyval :=
  match py_items h v with
  | inl e => inl e
  | inr xs => match nth_error xs i with Some x => inr x | None => inl IndexError end
  end.

(** ** A state and error monad over a state [S] *)

Definition M (S A : Type) := S -> (exc + A) * S.

Definition ret {S A} (x : A) : M S A := fun s => (inr x, s).
Definition raise {S A} (e : exc) : M S A := fun s => (inl e, s).
Definition bind {S A B} (m : M S A) (k : A -> M S B) : M S B :=
  fun s => match m s with
           | (inl e, s') => (inl e, s')
           | (inr x, s') => k x s'
           end.
Definition lift {S A} (r : exc + A) : M S A :=
  fun s => (r, s).

Notation "x <- m ;; k" := (bind m (fun x => k))
  (at level 61, m at next level, right associativity).

(** Heap primitives. *)
Definition alloc (c : seqkind * list pyval) : M heap pyval :=
  fun h => (inr (VRef (length h)), h ++ [c]).

Definition items (v : pyval) : M heap (list pyval) :=
  fun h => (py_items h v, h).

Definition getitem (v : pyval) (i : nat) : M heap pyval :=
  fun h => (py_getitem h v i, h).

Fixpoint replace_nth {A} (xs : list A) (i : nat) (y : A) : list A :=
  match xs, i with
  | [], _ => []
  | _ :: xs', O => y :: xs'
  | x :: xs', S i' => x :: replace_nth xs' i' y
  end.

(** [l.append(x)] on the list at location [l]. *)
Definition list_append (l : nat) (x : pyval) : M heap unit :=
  fun h => match nth_error h l with
           | Some (k, xs) => (inr tt, replace_nth h l (k, xs ++ [x]))
           | None => (inl TypeError, h)
           end.

(** [l[i] = x] on the list at location [l]. *)
Definition list_setitem (l : nat) (i : nat) (x : pyval) : M heap unit :=
  fun h => match nth_error h l with
           | Some (k, xs) =>
               if Nat.ltb i (length xs)
               then (inr tt, replace_nth h l (k, replace_nth xs i x))
               else (inl IndexError, h)
           | None => (inl TypeError, h)
           end.

(** [list.append] and item assignment on the list object [v]. *)
Definition append_to (v x : pyval) : M heap unit :=
  match v with VRef l => list_append l x | _ => raise AttributeError end.

Definition setitem (v : pyval) (i : nat) (x : pyval) : M heap unit :=
  match v with VRef l => list_setitem l i x | _ => raise TypeError end.

(** [for x in xs: body(x)] *)
Fixpoint iterM {S A} (body : A -> M S unit) (xs : list A) : M S unit :=
  match xs with
  | [] => ret tt
  | x :: xs' => _ <- body x;; iterM body xs'
  end.

(** ** Constructors of the distributions *)

(** The [transformer] and [prior] arguments: a string, an instance of the
    expected class ([TransformerMixin], [rv_frozen]) or any other object. *)
Inductive transformer_arg :=
| TAStr (s : string)
| TAMixin (id : nat)
| TAOther (id : nat).

Inductive prior_arg :=
| PAStr (s : string)
| PAFrozen (id : nat)
| PAOther (id : nat).

Definition to_Q (v : pyval) : option Q :=
  match v with VInt z => Some (inject_Z z) | VFloat q => Some q | _ => None end.

(** [int(q)]: truncation towards zero. *)
Definition trunc (q : Q) : Z := Z.quot (Qnum q) (Zpos (Qden q)).

Definition qsum (pk : list Q) : Q := fold_right Qplus 0%Q pk.

Definition targ_is (t : transformer_arg) (s : string) : bool :=
  match t with TAStr s' => String.eqb s' s | _ => false end.

Definition parg_is (p : prior_arg) (s : string) : bool :=
  match p with PAStr s' => String.eqb s' s | _ => false end.

(** [Real.__init__(low, high, prior, transformer)] *)
Definition Real_init (low high : pyval) (prior : prior_arg)
    (transformer : transformer_arg) : exc + dist :=
  let tr :=
    if targ_is transformer "identity" then inr TIdentity
    else if targ_is transformer "log" then inr TLog
    else if targ_is transformer "log10" then inr TLog10
    else match transformer with
         | TAMixin id => inr (TUser id)
         | _ => inl RuntimeError
         end in
  match tr with
  | inl e => inl e
  | inr tr =>
      if parg_is prior "uniform" then
        (* uniform(self._low, self._high - self._low) *)
        match to_Q low, to_Q high with
        | Some lo, Some hi => inr (DReal low high tr (RVUniform lo (hi - lo)))
        | _, _ => inl TypeError
        end
      else match prior with
           | PAFrozen id => inr (DReal low high tr (RVUser id))
           (* "... Got %s" % self._rvs: the attribute is not set yet *)
           | _ => inl AttributeError
           end
  end.

(** [Integer.__init__(low, high, prior, transformer)] *)
Definition Integer_init (low high : pyval) (prior : prior_arg)
    (transformer : transformer_arg) : exc + dist :=
  let tr :=
    if targ_is transformer "identity" then inr TIdentity
    else match transformer with
         | TAMixin id => inr (TUser id)
         | _ => inl RuntimeError
         end in
  match tr with
  | inl e => inl e
  | inr tr =>
      if parg_is prior "uniform" then
        (* randint(self._low, self._high); freezing evaluates high - 1 and
           high > low, which raise TypeError unless both are numbers *)
        match to_Q low, to_Q high with
        | Some lo, Some hi => inr (DInteger low high tr (RVRandint lo hi))
        | _, _ => inl TypeError
        end
      else match prior with
           | PAFrozen id => inr (DInteger low high tr (RVUser id))
           | _ => inl AttributeError
           end
  end.

(** [Categorical.__init__( *categories, prior=None, transformer='one-hot')] *)
Definition Categorical_init (categories : list pyval) (prior : option (list Q))
    (transformer : transformer_arg) : exc + dist :=
  let tr :=
    if targ_is transformer "onehot" then
      (* CategoryTransform() : the name is not defined in the module *)
      inl NameError
    else if targ_is transformer "labels" then inr TLabelEncoder
    else match transformer with
         | TAMixin id => inr (TUser id)
         | _ => inl RuntimeError
         end in
  match tr with
  | inl e => inl e
  | inr tr =>
      let n := length categories in
      let pk := match prior with
                | Some pk => inr pk
                | None => if Nat.eqb n 0 then inl ZeroDivisionError
                          else inr (repeat (1 # Pos.of_nat n) n)
                end in
      match pk with
      | inl e => inl e
      | inr pk =>
          (* rv_discrete(values=(range(n), prior)): the shapes must agree
             and np.allclose(np.sum(prior), 1) must hold *)
          if Nat.eqb (length pk) n
             && Qle_bool (Qabs (qsum pk - 1)) ((1 # 100000) + (1 # 100000000))
          then inr (DCategorical categories tr (RVDiscrete pk))
          else inl ValueError
      end
  end.

Definition Categorical_default (categories : list pyval) : exc + dist :=
  Categorical_init categories None (TAStr "one-hot").

(** ** [check_grid] *)

(** [Integer( *args)] and [Real( *args)] with the default [prior] and
    [transformer]; only argument lists of length 1 and 2 reach these calls
    from [check_grid], and one argument misses [high]. *)
Definition call_Integer (args : list pyval) : exc + dist :=
  match args with
  | [low; high] => Integer_init low high (PAStr "uniform") (TAStr "identity")
  | _ => inl TypeError
  end.

Definition call_Real (args : list pyval) : exc + dist :=
  match args with
  | [low; high] => Real_init low high (PAStr "uniform") (TAStr "identity")
  | _ => inl TypeError
  end.

Definition as_value (r : exc + dist) : M heap (option pyval) :=
  match r with inl e => raise e | inr d => ret (Some (VDist d)) end.

(** The body of [for i, dist in enumerate(sub_grid_)]: [None] when nothing
    is assigned to [sub_grid_[i]], [Some d'] for [sub_grid_[i] = d']. *)
Definition norm_spec (dist : pyval) : M heap (option pyval) :=
  if is_distribution dist then ret None
  else
    args <- items dist;;                          (* len(dist), *dist *)
    if Nat.ltb 2 (length args) then as_value (Categorical_default args)
    else
      x0 <- getitem dist 0;;
      if is_str x0 then as_value (Categorical_default args)
      else match x0 with
           | VInt _ => as_value (call_Integer args)
           | VFloat _ => as_value (call_Real args)
           | _ => ret None
           end.

Fixpoint norm_loop (sub_grid_ : pyval) (i k : nat) : M heap unit :=
  match k with
  | O => ret tt
  | S k' =>
      dist <- getitem sub_grid_ i;;
      o <- norm_spec dist;;
      _ <- match o with
           | Some d' => setitem sub_grid_ i d'
           | None => ret tt
           end;;
      norm_loop sub_grid_ (S i) k'
  end.

Definition flat_test (g0 : pyval) : M heap bool :=
  if is_distribution g0 then ret true
  else if is_sequence g0 then
    x <- getitem g0 0;; ret (is_number x || is_str x)
  else ret false.

Definition check_grid (grid : pyval) : M heap pyval :=
  g0 <- getitem grid 0;;
  flat <- flat_test g0;;
  grid <- (if flat then alloc (SList, [grid]) else ret grid);;
  grid_ <- alloc (SList, []);;
  subs <- items grid;;
  _ <- iterM (fun sub_grid =>
         xs <- items sub_grid;;                    (* list(sub_grid) *)
         sub_grid_ <- alloc (SList, xs);;
         _ <- append_to grid_ sub_grid_;;
         norm_loop sub_grid_ 0 (length xs)) subs;;
  ret grid_.

(** ** Random variates and [sample_points] *)

(** A numpy [RandomState]: its seed and how many raw draws it has made. *)
Record rng := mkRng { rseed : Z; rpos : nat }.

(** The generator of the global numpy state and the one of
    [check_random_state(seed)] for a local seed. *)
Record rstates := mkRS { glob : rng; local : rng }.

(** [random_state=None] draws from the global state; a [RandomState]
    argument draws from the local one. *)
Inductive rsel := UseGlobal | UseLocal.

Definition two53 : Z := 2 ^ 53.

(** Searchsorted on the cumulative weights: the first index [i] with
    [u <= pk_0 + ... + pk_i]. *)
Fixpoint searchsorted (pk : list Q) (acc u : Q) (i : nat) : option nat :=
  match pk with
  | [] => None
  | p :: pk' => if Qle_bool u (acc + p) then Some i
                else searchsorted pk' (acc + p) u (S i)
  end.

(** What the model does not compute itself: [fl_uniform loc scale k] is the
    double [U * scale + loc] scipy returns for the raw draw [k]
    ([U = k / 2^53]); [user_rvs id size g] is what
    [prior.rvs(size=size, random_state=g)] does for the frozen variate [id] a
    caller passed as [prior]: a value or an exception, and the generator it
    leaves. *)
Record oracle := mkOracle {
  fl_uniform : Q -> Q -> Z -> Q;
  user_rvs : nat -> option nat -> rng -> (exc + pyval) * rng
}.

Section Sampling.

(** [mt s i]: the [i]-th raw output of the Mersenne twister seeded by [s]. *)
Variable mt : Z -> nat -> Z.
Variable ud : oracle.

Definition raw (g : rng) : Z * rng :=
  (mt (rseed g) (rpos g) mod two53, mkRng (rseed g) (S (rpos g))).

Definition draw (r : rsel) : M rstates Z :=
  fun st => match r with
            | UseGlobal => let (k, g') := raw (glob st) in (inr k, mkRS g' (local st))
            | UseLocal => let (k, l') := raw (local st) in (inr k, mkRS (glob st) l')
            end.

(** scipy's argument check of its own variates, done before any draw
    ("Domain error in arguments."): [scale >= 0] for [uniform],
    [high > low] for [randint]. *)
Definition rv_argcheck (rv : frozen) : bool :=
  match rv with
  | RVUniform _ scale => Qle_bool 0 scale
  | RVRandint low high => negb (Qle_bool high low)
  | _ => true
  end.

(** numpy's check in [randint(low, high, size)]: [int(low)] and
    [int(high) - 1] must lie in the int64 range and [int(low) <= int(high) - 1]
    ("low is out of bounds", "high is out of bounds", "low >= high"). *)
Definition randint_inbounds (low high : Q) : bool :=
  let lo := trunc low in
  let hi := trunc high - 1 in
  (- 2 ^ 63 <=? lo) && (hi <=? 2 ^ 63 - 1) && (lo <=? hi).

(** One draw of scipy's variates; [RVDiscrete] is [rv_sample._ppf] on a
    uniform draw: the first index whose cumulative weight reaches it, and
    index [0] ([argmax] of an all-false array) when none does. *)
Definition rv_draw1 (rv : frozen) (r : rsel) : M rstates pyval :=
  k <- draw r;;
  match rv with
  | RVUniform loc scale => ret (VFloat (fl_uniform ud loc scale k))
  | RVRandint low high => ret (VInt (trunc low + k mod (trunc high - trunc low)))
  | RVDiscrete pk =>
      match searchsorted pk 0 (inject_Z k / inject_Z two53) 0 with
      | Some i => ret (VInt (Z.of_nat i))
      | None => ret (VInt 0)
      end
  | RVUser _ => raise TypeError   (* not reached: see [user_frozen_rvs] *)
  end.

Fixpoint repeatM {S A} (n : nat) (m : M S A) : M S (list A) :=
  match n with
  | O => ret []
  | S n' => x <- m;; xs <- repeatM n' m;; ret (x :: xs)
  end.

(** [size] draws, or one scalar draw when [size] is [None]. *)
Definition sized_draws (rv : frozen) (size : option nat) (r : rsel) : M rstates pyval :=
  match size with
  | None => rv_draw1 rv r
  | Some n => xs <- repeatM n (rv_draw1 rv r);; ret (VArray xs)
  end.

(** The caller's frozen variate, on the generator [r] selects. *)
Definition user_frozen_rvs (id : nat) (size : option nat) (r : rsel) : M rstates pyval :=
  fun st => match r with
            | UseGlobal => let (o, g') := user_rvs ud id size (glob st) in (o, mkRS g' (local st))
            | UseLocal => let (o, l') := user_rvs ud id size (local st) in (o, mkRS (glob st) l')
            end.

(** [self._rvs.rvs(size=n_samples, random_state=...)]: a scalar when
    [size] is [None], an array otherwise. scipy checks the arguments, returns
    [loc * ones(size)] without drawing when [scale == 0], and otherwise
    calls numpy, which returns an empty array for [size=0] before checking
    the bounds of [randint]. *)
Definition frozen_rvs (rv : frozen) (size : option nat) (r : rsel) : M rstates pyval :=
  match rv with
  | RVUser id => user_frozen_rvs id size r
  | _ =>
      if rv_argcheck rv then
        match rv with
        | RVUniform loc scale =>
            if Qeq_bool scale 0 then
              ret (match size with
                   | None => VFloat loc
                   | Some n => VArray (repeat (VFloat loc) n)
                   end)
            else sized_draws rv size r
        | RVRandint low high =>
            match size with
            | Some O => ret (VArray [])
            | _ => if randint_inbounds low high then sized_draws rv size r
                   else raise ValueError
            end
        | _ => sized_draws rv size r
        end
      else raise ValueError
  end.

(** [Real.rvs] and [Integer.rvs]:
    [random_vals = self._rvs.rvs(...); return np.clip(random_vals, low, high)]
    where [low] and [high] are names the module does not define. *)
Definition Real_rvs (d : dist) (size : option nat) (r : rsel) : M rstates pyval :=
  match d with
  | DReal _ _ _ rv => _ <- frozen_rvs rv size r;; raise NameError
  | _ => raise AttributeError
  end.

Definition Integer_rvs (d : dist) (size : option nat) (r : rsel) : M rstates pyval :=
  match d with
  | DInteger _ _ _ rv => _ <- frozen_rvs rv size r;; raise NameError
  | _ => raise AttributeError
  end.

(** [self.categories[choices]] *)
Definition category_at (cats : list pyval) (c : pyval) : exc + pyval :=
  match c with
  | VInt i => match nth_error cats (Z.to_nat i) with
              | Some x => inr x
              | None => inl IndexError
              end
  | _ => inl IndexError
  end.

Fixpoint categories_at (cats : list pyval) (cs : list pyval) : exc + list pyval :=
  match cs with
  | [] => inr []
  | c :: cs' => match category_at cats c, categories_at cats cs' with
                | inr x, inr xs => inr (x :: xs)
                | inl e, _ => inl e
                | _, inl e => inl e
                end
  end.

Definition index_categories (cats : list pyval) (c : pyval) : exc + pyval :=
  match c with
  | VArray cs => match categories_at cats cs with
                 | inr xs => inr (VArray xs)
                 | inl e => inl e
                 end
  | _ => category_at cats c
  end.

(** [Categorical.rvs] *)
Definition Categorical_rvs (d : dist) (size : option nat) (r : rsel) : M rstates pyval :=
  match d with
  | DCategorical cats _ rv =>
      choices <- frozen_rvs rv size r;; lift (index_categories cats choices)
  | _ => raise AttributeError
  end.

(** [dist.rvs(...)] on an element of a normalized sub-grid. *)
Definition rvs (v : pyval) (size : option nat) (r : rsel) : M rstates pyval :=
  match v with
  | VDist (DReal _ _ _ _ as d) => Real_rvs d size r
  | VDist (DInteger _ _ _ _ as d) => Integer_rvs d size r
  | VDist (DCategorical _ _ _ as d) => Categorical_rvs d size r
  | _ => raise AttributeError
  end.

(** [dist.rvs()] with scipy < 0.16: [Distribution.rvs] passes
    [random_state=None] to the frozen variate's [rvs], which takes no such
    keyword there. *)
Definition rvs_old (v : pyval) : M rstates pyval :=
  match v with
  | VDist _ => raise TypeError
  | _ => raise AttributeError
  end.

(** [for dist in sub_grid: params.append(...)], with the [sp_version] gate:
    [sp_old] is [sp_version < (0, 16)]. *)
Fixpoint draw_dims (sp_old : bool) (dims : list pyval) (r : rsel)
    : M rstates (list pyval) :=
  match dims with
  | [] => ret []
  | d :: ds =>
      v <- (if sp_old then rvs_old d else rvs d None r);;
      vs <- draw_dims sp_old ds r;; ret (v :: vs)
  end.

(** The body of [for n in range(n_points)]: choose a sub-grid with
    [rng.randint(0, len(grid_))], draw one value per dimension and yield the
    tuple. *)
Definition draw_point (sp_old : bool) (h : heap) (grid_ : pyval) (r : rsel)
    : M rstates (list pyval) :=
  match py_items h grid_ with
  | inl e => raise e
  | inr subs =>
      if Nat.eqb (length subs) 0 then raise ValueError else
      k <- draw r;;
      match nth_error subs (Z.to_nat (k mod Z.of_nat (length subs))) with
      | None => raise IndexError
      | Some sub_grid =>
          match py_items h sub_grid with
          | inl e => raise e
          | inr dims => draw_dims sp_old dims r
          end
      end
  end.

(** The yielded tuples, and the exception that ends the generator early. *)
Fixpoint points (sp_old : bool) (h : heap) (grid_ : pyval) (r : rsel) (n : nat)
    (st : rstates) : list (list pyval) * option exc * rstates :=
  match n with
  | O => ([], None, st)
  | S n' =>
      match draw_point sp_old h grid_ r st with
      | (inl e, st') => ([], Some e, st')
      | (inr p, st') =>
          let '(ps, e, st'') := points sp_old h grid_ r n' st' in (p :: ps, e, st'')
      end
  end.

(** [sample_points(grid, n_points, random_state)], run to exhaustion.
    [check_random_state(None)] is the global state itself; an integer seed
    gives a fresh [RandomState(seed)]. *)
Definition sample_points (sp_old : bool) (grid : pyval) (n_points : nat)
    (seed : option Z) (h : heap) (st : rstates)
    : list (list pyval) * option exc * rstates :=
  match check_grid grid h with
  | (inl e, _) => ([], Some e, st)
  | (inr grid_, h') =>
      match seed with
      | None => points sp_old h' grid_ UseGlobal n_points st
      | Some s =>
          if (0 <=? s) && (s <? 2 ^ 32)
          then points sp_old h' grid_ UseLocal n_points (mkRS (glob st) (mkRng s 0))
          else ([], Some ValueError, st)
      end
  end.

End Sampling.

(** ** The numeric transformers, over the reals *)

Module Transformers.
Local Open Scope R_scope.

(** [Identity]: [transform] and [inverse_transform] return their argument. *)
Definition Identity_transform (values : list R) : list R := values.
Definition Identity_inverse_transform (values : list R) : list R := values.

(** [Log]: [np.log] and [np.exp], elementwise. *)
Definition Log_transform (values : list R) : list R := map ln values.
Definition Log_inverse_transform (values : list R) : list R := map exp values.

(** [Log10]: [np.log10] and [10 ** np.asarray(values)], elementwise. *)
Definition log10 (x : R) : R := ln x / ln 10.
Definition Log10_transform (values : list R) : list R := map log10 values.
Definition Log10_inverse_transform (values : list R) : list R :=
  map (fun v => Rpower 10 v) values.

End Transformers.

(** ** [CategoricalEncoder] *)

(** The labels are Python [str] values. numpy keeps such a label unchanged
    in its arrays when it holds no NUL character ([nul_free]); the
    properties below assume that of the labels they are about. Labels of
    other types are not modelled. *)
Module Encoder.

(** [np.unique]: the distinct labels in increasing order. *)
Fixpoint insert_sorted (s : string) (xs : list string) : list string :=
  match xs with
  | [] => [s]
  | x :: xs' => match String.compare s x with
                | Lt => s :: xs
                | Eq => xs
                | Gt => x :: insert_sorted s xs'
                end
  end.

Definition unique (values : list string) : list string :=
  fold_right insert_sorted [] values.

Fixpoint index_of (s : string) (xs : list string) : option nat :=
  match xs with
  | [] => None
  | x :: xs' => if String.eqb s x then Some O
                else option_map S (index_of s xs')
  end.

(** A row of [OneHotEncoder.transform(...).toarray()]: [n] columns, a [1] in
    column [i]. *)
Definition one_hot (n i : nat) : list Z :=
  map (fun j => if Nat.eqb j i then 1 else 0) (seq 0 n).

(** The state of the two sklearn encoders: [None] before [fit], the fitted
    [LabelEncoder.classes_] after it (the [OneHotEncoder] is then fitted on
    the codes [0 .. len(classes_) - 1]). *)
Definition CategoricalEncoder := option (list string).

Definition CategoricalEncoder_init : CategoricalEncoder := None.

(** [fit(values)]: [LabelEncoder.fit_transform], then [OneHotEncoder.fit]
    on the codes; fitting the one-hot encoder on no sample raises
    [ValueError]. *)
Definition fit (enc : CategoricalEncoder) (values : list string)
    : exc + CategoricalEncoder :=
  match values with
  | [] => inl ValueError
  | _ => inr (Some (unique values))
  end.

Fixpoint codes (classes values : list string) : option (list nat) :=
  match values with
  | [] => Some []
  | v :: vs => match index_of v classes, codes classes vs with
               | Some i, Some is => Some (i :: is)
               | _, _ => None
               end
  end.

(** [transform(values)]: an unfitted encoder raises [NotFittedError]
    (a [ValueError]); a label outside [classes_] makes
    [LabelEncoder.transform] raise [ValueError("y contains new labels")];
    [OneHotEncoder.transform] refuses an array of no sample with
    [ValueError]. *)
Definition transform (enc : CategoricalEncoder) (values : list string)
    : exc + list (list Z) :=
  match enc with
  | None => inl ValueError
  | Some classes =>
      match codes classes values with
      | Some [] => inl ValueError
      | Some is => inr (map (one_hot (length classes)) is)
      | None => inl ValueError
      end
  end.

(** Reading a label back from a one-hot row: the class in the column of the
    first [1] (the encoder itself has no [inverse_transform]). *)
Fixpoint first_one (row : list Z) : option nat :=
  match row with
  | [] => None
  | x :: row' => if Z.eqb x 1 then Some O else option_map S (first_one row')
  end.

Definition decode (classes : list string) (row : list Z) : option string :=
  match first_one row with
  | Some i => nth_error classes i
  | None => None
  end.

End Encoder.

(** ** Properties *)

(** Helpers for the distributions. *)

Lemma repeatM_ok {S A} (m : M S A) n st :
  (forall st, exists x st', m st = (inr x, st')) ->
  exists xs st', repeatM n m st = (inr xs, st').
Proof.
  intros Hm. revert st. induction n as [|n IH]; intros st; simpl.
  - exists [], st; reflexivity.
  - unfold bind. destruct (Hm st) as (x & st1 & ->).
    destruct (IH st1) as (xs & st2 & ->). exists (x :: xs), st2; reflexivity.
Qed.

Lemma draw_ok mt r st : exists k st', draw mt r st = (inr k, st').
Proof. destruct r; unfold draw; destruct raw; eauto. Qed.

(** scipy's own variates draw without failing. *)
Lemma rv_draw1_ok mt ud rv r st :
  (forall id, rv <> RVUser id) ->
  exists x st', rv_draw1 mt ud rv r st = (inr x, st').
Proof.
  intros Hu. unfold rv_draw1, bind.
  destruct (draw_ok mt r st) as (k & st1 & ->).
  destruct rv as [lo sc | lo hi | pk | id]; cbn.
  - eexists; eexists; reflexivity.
  - eexists; eexists; reflexivity.
  - destruct (searchsorted _ _ _ _); eexists; eexists; reflexivity.
  - exfalso; exact (Hu id eq_refl).
Qed.

Lemma sized_draws_ok mt ud rv size r st :
  (forall id, rv <> RVUser id) ->
  exists v st', sized_draws mt ud rv size r st = (inr v, st').
Proof.
  intros Hu. destruct size as [n|]; simpl.
  - unfold bind. destruct (repeatM_ok _ n st (fun st0 => rv_draw1_ok mt ud rv r st0 Hu))
      as (xs & st' & ->).
    eexists; eexists; reflexivity.
  - apply rv_draw1_ok; exact Hu.
Qed.

(** The priors whose draws cannot fail: a uniform with [scale >= 0], and a
    randint whose bounds pass the checks of scipy and of numpy. *)
Definition prior_draws (rv : frozen) : bool :=
  match rv with
  | RVUniform _ scale => Qle_bool 0 scale
  | RVRandint low high => negb (Qle_bool high low) && randint_inbounds low high
  | _ => false
  end.

Lemma frozen_rvs_ok mt ud rv size r st :
  prior_draws rv = true ->
  exists v st', frozen_rvs mt ud rv size r st = (inr v, st').
Proof.
  intros Hp. destruct rv as [lo sc | lo hi | pk | id]; try discriminate; unfold frozen_rvs.
  - simpl in Hp. cbn [rv_argcheck]. rewrite Hp.
    destruct (Qeq_bool sc 0); [eexists; eexists; reflexivity|].
    apply sized_draws_ok; discriminate.
  - simpl in Hp. apply andb_prop in Hp as [H1 H2]. cbn [rv_argcheck]. rewrite H1.
    destruct size as [[|n]|]; [eexists; eexists; reflexivity| |]; rewrite H2;
      apply sized_draws_ok; discriminate.
Qed.

Lemma trunc_inject_Z z : trunc (inject_Z z) = z.
Proof. unfold trunc. simpl. apply Z.quot_1_r. Qed.

Lemma randint_inbounds_Z lo hi :
  - 2 ^ 63 <= lo < hi -> hi <= 2 ^ 63 -> randint_inbounds (inject_Z lo) (inject_Z hi) = true.
Proof.
  intros H1 H2. unfold randint_inbounds. rewrite !trunc_inject_Z.
  apply andb_true_intro; split; [apply andb_true_intro; split|]; apply Z.leb_le; lia.
Qed.

Lemma prior_draws_randint_Z lo hi :
  - 2 ^ 63 <= lo < hi -> hi <= 2 ^ 63 -> prior_draws (RVRandint (inject_Z lo) (inject_Z hi)) = true.
Proof.
  intros H1 H2. simpl. rewrite randint_inbounds_Z by lia.
  destruct (Qle_bool (inject_Z hi) (inject_Z lo)) eqn:E; [|reflexivity].
  apply Qle_bool_iff in E. rewrite <- Zle_Qle in E. lia.
Qed.

Lemma Real_init_rv low high prior tr d :
  Real_init low high prior tr = inr d ->
  exists l h t rv, d = DReal l h t rv /\
    ((exists lo sc, rv = RVUniform lo sc /\
                    to_Q low = Some lo /\ exists hi, to_Q high = Some hi /\ sc = (hi - lo)%Q)
     \/ exists id, rv = RVUser id).
Proof.
  unfold Real_init. intros H.
  destruct (targ_is tr "identity"), (targ_is tr "log"), (targ_is tr "log10");
  try destruct tr; try discriminate;
  destruct (parg_is prior "uniform");
  try (destruct (to_Q low) as [lo|] eqn:El, (to_Q high) as [hi|] eqn:Eh; try discriminate);
  try (destruct prior; try discriminate);
  injection H as <-; do 4 eexists; split; try reflexivity; eauto 10.
Qed.


Lemma repeatM_forall {S A} (P : A -> Prop) (m : M S A) n st xs st' :
  (forall st x st', m st = (inr x, st') -> P x) ->
  repeatM n m st = (inr xs, st') -> Forall P xs.
Proof.
  intros Hm. revert st xs st'. induction n as [|n IH]; intros st xs st' H; simpl in H.
  - injection H as <- _. constructor.
  - unfold bind in H. destruct (m st) as [[e|x] st1] eqn:E1; [discriminate|].
    destruct (repeatM n m st1) as [[e|ys] st2] eqn:E2; [discriminate|].
    injection H as <- _. constructor; eauto.
Qed.

(** A value drawn by [randint(lo, hi)]: an integer, or an array of
    integers, in [lo, hi). *)
Definition in_range (lo hi : Z) (v : pyval) : Prop :=
  match v with
  | VInt z => lo <= z < hi
  | VArray xs => Forall (fun x => exists z, x = VInt z /\ lo <= z < hi) xs
  | _ => False
  end.

Lemma randint_draw1_range mt ud lo hi r st x st' :
  lo < hi ->
  rv_draw1 mt ud (RVRandint (inject_Z lo) (inject_Z hi)) r st = (inr x, st') ->
  exists z, x = VInt z /\ lo <= z < hi.
Proof.
  intros Hlt H. unfold rv_draw1, bind in H.
  destruct (draw_ok mt r st) as (k & st1 & E). rewrite E in H.
  injection H as <- _. rewrite !trunc_inject_Z. eexists; split; [reflexivity|].
  pose proof (Z.mod_pos_bound k (hi - lo) ltac:(lia)). lia.
Qed.

(** The uniform prior of [Integer] with integral bounds [lo < hi] is
    high-exclusive: every value it draws lies in [lo, hi). *)
Lemma randint_rvs_range mt ud lo hi size r st v st' :
  lo < hi ->
  frozen_rvs mt ud (RVRandint (inject_Z lo) (inject_Z hi)) size r st = (inr v, st') ->
  in_range lo hi v.
Proof.
  intros Hlt H.
  assert (Hc : rv_argcheck (RVRandint (inject_Z lo) (inject_Z hi)) = true).
  { simpl. destruct (Qle_bool (inject_Z hi) (inject_Z lo)) eqn:E; [|reflexivity].
    apply Qle_bool_iff in E. rewrite <- Zle_Qle in E. lia. }
  unfold frozen_rvs in H. rewrite Hc in H.
  assert (Hs : forall size, sized_draws mt ud (RVRandint (inject_Z lo) (inject_Z hi)) size r st
                            = (inr v, st') -> in_range lo hi v).
  { intros [n|] Hd; simpl in Hd.
    - unfold bind in Hd.
      destruct (repeatM n (rv_draw1 mt ud (RVRandint (inject_Z lo) (inject_Z hi)) r) st)
        as [[e|xs] st1] eqn:E; simpl in Hd; [discriminate|].
      injection Hd as <- _. simpl.
      eapply repeatM_forall; [|exact E].
      intros st0 x st2 Hx. eapply randint_draw1_range; eauto.
    - destruct (randint_draw1_range mt ud lo hi r st v st' Hlt Hd) as (z & -> & Hz).
      exact Hz. }
  destruct size as [[|n]|].
  - injection H as <- _. simpl. constructor.
  - destruct (randint_inbounds _ _); [exact (Hs _ H)|discriminate].
  - destruct (randint_inbounds _ _); [exact (Hs _ H)|discriminate].
Qed.

(** [_ <- m;; raise e] never returns a value, and raises [e] when [m] does
    not fail. *)
Lemma then_raise_no_value {S A B} (m : M S A) (e : exc) st (v : B) :
  fst ((_ <- m;; raise e) st) <> inr v.
Proof. unfold bind. destruct (m st) as [[e'|x] st']; discriminate. Qed.

Lemma rvs_after_draw_NameError mt ud rv size r st :
  prior_draws rv = true ->
  fst ((_ <- frozen_rvs mt ud rv size r;; raise NameError) st : (exc + pyval) * rstates)
  = inl NameError.
Proof.
  intros Hp. unfold bind.
  destruct (frozen_rvs_ok mt ud rv size r st Hp) as (v & st' & ->). reflexivity.
Qed.



(** C2: [Categorical( *categories)] with the default [transformer='one-hot']
    never builds a distribution: the constructor compares against ['onehot']
    and ['labels'], so the default string falls through to
    [RuntimeError('one-hot is not a valid transformer.')], for every list of
    categories. *)
Theorem Categorical_default_RuntimeError :
  forall categories, Categorical_default categories = inl RuntimeError.
Proof. intros categories. reflexivity. Qed.

(** C4: With the default transformer, a [prior] that is neither ['uniform'] nor
    a frozen variate makes [Real(low, high, prior)] and
    [Integer(low, high, prior)] fail with [AttributeError], raised while the
    error message formats [self._rvs], which is not yet set; the intended
    [ValueError] is never raised. *)
Theorem bad_prior_AttributeError :
  forall low high prior,
    parg_is prior "uniform" = false ->
    (forall id, prior <> PAFrozen id) ->
    Real_init low high prior (TAStr "identity") = inl AttributeError /\
    Integer_init low high prior (TAStr "identity") = inl AttributeError.
Proof.
  intros low high prior Hu Hf. unfold Real_init, Integer_init.
  cbn [targ_is String.eqb Ascii.eqb Bool.eqb andb]. rewrite Hu.
  destruct prior as [s|id|id]; [split; reflexivity| |split; reflexivity].
  exfalso; exact (Hf id eq_refl).
Qed.

(** C9: [Integer(lo, hi)] with the uniform prior and integral bounds [lo < hi]
    holds [randint(lo, hi)], whose draws all lie in [lo, hi) (high
    exclusive); but [Integer.rvs] returns none of them: it never returns a
    value, and when the bounds lie in the int64 range it raises [NameError]
    at [np.clip(random_vals, low, high)] after drawing. *)
Theorem Integer_uniform_draws_then_NameError :
  forall mt ud lo hi tr d,
    lo < hi ->
    Integer_init (VInt lo) (VInt hi) (PAStr "uniform") tr = inr d ->
    (exists t, d = DInteger (VInt lo) (VInt hi) t (RVRandint (inject_Z lo) (inject_Z hi))) /\
    (forall size r st v st',
        frozen_rvs mt ud (RVRandint (inject_Z lo) (inject_Z hi)) size r st = (inr v, st') ->
        in_range lo hi v) /\
    (forall size r st v, fst (Integer_rvs mt ud d size r st) <> inr v) /\
    (- 2 ^ 63 <= lo -> hi <= 2 ^ 63 ->
     forall size r st, fst (Integer_rvs mt ud d size r st) = inl NameError).
Proof.
  intros mt ud lo hi tr d Hlt Hd.
  assert (Hdef : exists t, d = DInteger (VInt lo) (VInt hi) t
                                 (RVRandint (inject_Z lo) (inject_Z hi))).
  { unfold Integer_init in Hd. cbn [parg_is String.eqb Ascii.eqb Bool.eqb andb to_Q] in Hd.
    destruct (targ_is tr "identity"); [injection Hd as <-; eauto|].
    destruct tr; try discriminate. injection Hd as <-; eauto. }
  split; [exact Hdef|]. split; [|split].
  - intros size r st v st' H. eapply randint_rvs_range; eauto.
  - intros size r st v. destruct Hdef as (t & ->). apply then_raise_no_value.
  - intros H1 H2 size r st. destruct Hdef as (t & ->).
    apply rvs_after_draw_NameError, prior_draws_randint_Z; lia.
Qed.

(** *** Heap effects of [check_grid] *)

Section HeapEffects.
Local Open Scope nat_scope.

Lemma length_replace_nth {A} (xs : list A) i y : length (replace_nth xs i y) = length xs.
Proof. revert i; induction xs as [|x xs IH]; intros [|i]; simpl; auto. Qed.

Lemma nth_error_replace_nth_neq {A} (xs : list A) i j y :
  i <> j -> nth_error (replace_nth xs i y) j = nth_error xs j.
Proof.
  revert i j; induction xs as [|x xs IH]; intros [|i] [|j] Hne; simpl; auto.
  congruence.
Qed.

(** [m] reads the heap but never writes it. *)
Definition pure {A} (m : M heap A) : Prop := forall h, snd (m h) = h.

(** [m] allocates, and writes only at locations [>= n]. *)
Definition frame (n : nat) {A} (m : M heap A) : Prop :=
  forall h, n <= length h ->
    n <= length (snd (m h)) /\ forall l, l < n -> nth_error (snd (m h)) l = nth_error h l.

(** [m] preserves the heap invariant [P]. *)
Definition keeps (P : heap -> Prop) {A} (m : M heap A) : Prop :=
  forall h, P h -> P (snd (m h)).

Create HintDb heapfx.

Lemma pure_ret {A} (x : A) : pure (ret x).
Proof. intros h; reflexivity. Qed.
Lemma pure_raise {A} e : pure (@raise heap A e).
Proof. intros h; reflexivity. Qed.
Lemma pure_lift {A} (r : exc + A) : pure (lift r).
Proof. intros h; reflexivity. Qed.
Lemma pure_items v : pure (items v).
Proof. intros h; reflexivity. Qed.
Lemma pure_getitem v i : pure (getitem v i).
Proof. intros h; reflexivity. Qed.
Lemma pure_as_value r : pure (as_value r).
Proof. destruct r; intros h; reflexivity. Qed.
Lemma pure_bind {A B} (m : M heap A) (k : A -> M heap B) :
  pure m -> (forall x, pure (k x)) -> pure (bind m k).
Proof.
  intros Hm Hk h. unfold bind. specialize (Hm h).
  destruct (m h) as [[e|x] h1]; simpl in *; subst; [reflexivity|apply Hk].
Qed.
#[local] Hint Resolve pure_ret pure_raise pure_lift pure_items pure_getitem
  pure_as_value pure_bind : heapfx.

Lemma norm_spec_pure d : pure (norm_spec d).
Proof.
  unfold norm_spec. destruct (is_distribution d); auto with heapfx.
  apply pure_bind; auto with heapfx. intros args.
  destruct (Nat.ltb 2 (length args)); auto with heapfx.
  apply pure_bind; auto with heapfx. intros x0.
  destruct (is_str x0); [auto with heapfx|].
  destruct x0; auto with heapfx.
Qed.

Lemma flat_test_pure g0 : pure (flat_test g0).
Proof.
  unfold flat_test. destruct (is_distribution g0), (is_sequence g0); auto with heapfx.
Qed.

Lemma frame_pure n {A} (m : M heap A) : pure m -> frame n m.
Proof. intros Hm h Hn. rewrite !Hm. split; auto. Qed.

Lemma frame_bind n {A B} (m : M heap A) (k : A -> M heap B) :
  frame n m -> (forall x, frame n (k x)) -> frame n (bind m k).
Proof.
  intros Hm Hk h Hn. unfold bind. destruct (Hm h Hn) as [Hn1 Hs1].
  destruct (m h) as [[e|x] h1]; simpl in *; auto.
  destruct (Hk x h1 Hn1) as [Hn2 Hs2]. split; auto.
  intros l Hl. rewrite Hs2 by exact Hl. auto.
Qed.

Lemma frame_alloc_bind n {A} c (k : pyval -> M heap A) :
  (forall l, n <= l -> frame n (k (VRef l))) -> frame n (bind (alloc c) k).
Proof.
  intros Hk h Hn. unfold bind, alloc.
  assert (Hn' : n <= length (h ++ [c])) by (rewrite length_app; simpl; lia).
  destruct (Hk (length h) Hn (h ++ [c]) Hn') as [H1 H2]. split; auto.
  intros l Hl. rewrite H2 by exact Hl. apply nth_error_app1. lia.
Qed.

Lemma frame_setitem n l i x : n <= l -> frame n (setitem (VRef l) i x).
Proof.
  intros Hl h Hn. simpl. unfold list_setitem.
  destruct (nth_error h l) as [[k xs]|]; [|simpl; auto].
  destruct (Nat.ltb i (length xs)); simpl; [|auto].
  rewrite length_replace_nth. split; auto.
  intros l' Hl'. apply nth_error_replace_nth_neq. lia.
Qed.

Lemma frame_append n l x : n <= l -> frame n (append_to (VRef l) x).
Proof.
  intros Hl h Hn. simpl. unfold list_append.
  destruct (nth_error h l) as [[k xs]|]; simpl; [|auto].
  rewrite length_replace_nth. split; auto.
  intros l' Hl'. apply nth_error_replace_nth_neq. lia.
Qed.

Lemma frame_iterM n {A} (body : A -> M heap unit) xs :
  (forall x, frame n (body x)) -> frame n (iterM body xs).
Proof.
  intros Hb. induction xs as [|x xs IH]; simpl.
  - apply frame_pure, pure_ret.
  - apply frame_bind; auto.
Qed.

Lemma frame_norm_loop n l i k : n <= l -> frame n (norm_loop (VRef l) i k).
Proof.
  intros Hl. revert i. induction k as [|k IH]; intros i; simpl.
  - apply frame_pure, pure_ret.
  - apply frame_bind; [apply frame_pure, pure_getitem|]. intros d.
    apply frame_bind; [apply frame_pure, norm_spec_pure|]. intros [d'|].
    + apply frame_bind; auto. apply frame_setitem; exact Hl.
    + apply frame_bind; auto. apply frame_pure, pure_ret.
Qed.

Lemma frame_check_grid n grid : frame n (check_grid grid).
Proof.
  unfold check_grid.
  apply frame_bind; [apply frame_pure, pure_getitem|]. intros g0.
  apply frame_bind; [apply frame_pure, flat_test_pure|]. intros flat.
  apply frame_bind.
  { destruct flat; [|apply frame_pure, pure_ret].
    intros h Hn. simpl. rewrite length_app. simpl. split; [lia|].
    intros l Hl. apply nth_error_app1. lia. }
  intros grid'. apply frame_alloc_bind. intros lg Hlg.
  apply frame_bind; [apply frame_pure, pure_items|]. intros subs.
  apply frame_bind; [|intros; apply frame_pure, pure_ret].
  apply frame_iterM. intros sub_grid.
  apply frame_bind; [apply frame_pure, pure_items|]. intros xs.
  apply frame_alloc_bind. intros ls Hls.
  apply frame_bind; [apply frame_append; exact Hlg|]. intros _.
  apply frame_norm_loop; exact Hls.
Qed.

(** The list at [lg] is fresh ([n <= lg]) and holds only references to
    fresh lists. *)
Definition fresh_grid (n lg : nat) (h : heap) : Prop :=
  n <= lg /\ exists k subs, nth_error h lg = Some (k, subs) /\
    Forall (fun v => exists l, v = VRef l /\ n <= l) subs.

Lemma fresh_grid_lt n lg h : fresh_grid n lg h -> lg < length h.
Proof.
  intros (_ & k & subs & E & _). apply nth_error_Some. congruence.
Qed.

Lemma keeps_pure P {A} (m : M heap A) : pure m -> keeps P m.
Proof. intros Hm h HP. rewrite Hm. exact HP. Qed.

Lemma keeps_bind P {A B} (m : M heap A) (k : A -> M heap B) :
  keeps P m -> (forall x, keeps P (k x)) -> keeps P (bind m k).
Proof.
  intros Hm Hk h HP. unfold bind. specialize (Hm h HP).
  destruct (m h) as [[e|x] h1]; simpl in *; auto. apply Hk; exact Hm.
Qed.

Lemma keeps_alloc_bind n lg {A} c (k : pyval -> M heap A) :
  (forall l, lg < l -> keeps (fresh_grid n lg) (k (VRef l))) ->
  keeps (fresh_grid n lg) (bind (alloc c) k).
Proof.
  intros Hk h HP. unfold bind, alloc. apply Hk; [apply (fresh_grid_lt n); exact HP|].
  destruct HP as (Hn & kd & subs & E & F). split; [exact Hn|].
  exists kd, subs. split; [|exact F].
  rewrite nth_error_app1; [exact E|]. apply nth_error_Some. congruence.
Qed.

Lemma keeps_setitem n lg l i x : l <> lg -> keeps (fresh_grid n lg) (setitem (VRef l) i x).
Proof.
  intros Hne h HP. simpl. unfold list_setitem.
  destruct (nth_error h l) as [[k xs]|]; [|exact HP].
  destruct (Nat.ltb i (length xs)); [|exact HP]. simpl.
  destruct HP as (Hn & kd & subs & E & F). split; [exact Hn|].
  exists kd, subs. rewrite nth_error_replace_nth_neq by exact Hne. auto.
Qed.

Lemma keeps_append n lg l : n <= l -> keeps (fresh_grid n lg) (append_to (VRef lg) (VRef l)).
Proof.
  intros Hl h HP. simpl. unfold list_append.
  destruct HP as (Hn & kd & subs & E & F). rewrite E. simpl. split; [exact Hn|].
  exists kd, (subs ++ [VRef l]). split.
  - clear F Hn. revert lg E. induction h as [|c h IH]; intros [|lg] E; simpl in *.
    + discriminate.
    + discriminate.
    + injection E as ->. reflexivity.
    + apply (IH lg E).
  - apply Forall_app. split; [exact F|].
    constructor; [exists l; split; [reflexivity|exact Hl]|constructor].
Qed.

Lemma keeps_norm_loop n lg l i k : l <> lg -> keeps (fresh_grid n lg) (norm_loop (VRef l) i k).
Proof.
  intros Hne. revert i. induction k as [|k IH]; intros i; simpl.
  - apply keeps_pure, pure_ret.
  - apply keeps_bind; [apply keeps_pure, pure_getitem|]. intros d.
    apply keeps_bind; [apply keeps_pure, norm_spec_pure|]. intros [d'|].
    + apply keeps_bind; auto. apply keeps_setitem; exact Hne.
    + apply keeps_bind; auto. apply keeps_pure, pure_ret.
Qed.

Lemma keeps_iterM P {A} (body : A -> M heap unit) xs :
  (forall x, keeps P (body x)) -> keeps P (iterM body xs).
Proof.
  intros Hb. induction xs as [|x xs IH]; simpl.
  - apply keeps_pure, pure_ret.
  - apply keeps_bind; auto.
Qed.

(** C8: [check_grid] never writes to the caller's objects: every list and
    tuple that exists before the call is unchanged afterwards (whether the
    call returns or raises), and a returned grid is a freshly allocated list
    whose sub-grids are all freshly allocated lists. *)
Theorem check_grid_preserves_input :
  forall grid h o h',
    check_grid grid h = (o, h') ->
    (forall l, l < length h -> nth_error h' l = nth_error h l) /\
    (forall r, o = inr r -> exists lg, r = VRef lg /\ fresh_grid (length h) lg h').
Proof.
  intros grid h o h' Hc. split.
  - intros l Hl. destruct (frame_check_grid (length h) grid h (le_n _)) as [_ H].
    rewrite Hc in H. apply H; exact Hl.
  - intros r ->. revert Hc. unfold check_grid, bind at 1.
    rewrite (surjective_pairing (getitem grid 0 h)), (pure_getitem grid 0 h).
    destruct (fst (getitem grid 0 h)) as [e|g0]; [discriminate|].
    unfold bind at 1.
    rewrite (surjective_pairing (flat_test g0 h)), (flat_test_pure g0 h).
    destruct (fst (flat_test g0 h)) as [e|flat]; [discriminate|].
    unfold bind at 1.
    set (h1 := snd ((if flat then alloc (SList, [grid]) else ret grid) h)).
    assert (Hh1 : length h <= length h1).
    { subst h1. destruct flat; simpl; [rewrite length_app|]; simpl; lia. }
    destruct ((if flat then alloc (SList, [grid]) else ret grid) h) as [[e|grid'] h1'] eqn:E1;
      [discriminate|].
    simpl in h1; subst h1.
    unfold bind at 1, alloc at 1.
    set (lg := length h1'). set (h2 := h1' ++ [(SList, [])]).
    assert (HP : fresh_grid (length h) lg h2).
    { split; [exact Hh1|]. exists SList, []. split; [|constructor].
      subst h2 lg. rewrite nth_error_app2 by lia. rewrite Nat.sub_diag. reflexivity. }
    unfold bind at 1. rewrite (surjective_pairing (items grid' h2)), (pure_items grid' h2).
    destruct (fst (items grid' h2)) as [e|subs]; [discriminate|].
    unfold bind at 1.
    assert (Hk : keeps (fresh_grid (length h) lg)
                   (iterM (fun sub_grid =>
                      xs <- items sub_grid;;
                      sub_grid_ <- alloc (SList, xs);;
                      _ <- append_to (VRef lg) sub_grid_;;
                      norm_loop sub_grid_ 0 (length xs)) subs)).
    { apply keeps_iterM. intros sub_grid.
      apply keeps_bind; [apply keeps_pure, pure_items|]. intros xs.
      apply keeps_alloc_bind. intros ls Hls.
      apply keeps_bind; [apply keeps_append; unfold lg in *; lia|]. intros _.
      apply keeps_norm_loop. lia. }
    specialize (Hk h2 HP).
    match goal with |- context [iterM ?b subs h2] =>
      destruct (iterM b subs h2) as [[e|u] h3] end; [discriminate|].
    unfold ret. intros Hc. injection Hc as <- <-. exists lg. split; [reflexivity|exact Hk].
Qed.

End HeapEffects.

(** *** Classification of the per-dimension specs *)

Lemma py_items_app h e v xs : py_items h v = inr xs -> py_items (h ++ e) v = inr xs.
Proof.
  destruct v; simpl; auto. destruct (nth_error h l) as [[k ys]|] eqn:E; [|discriminate].
  rewrite nth_error_app1 by (apply nth_error_Some; congruence). rewrite E. auto.
Qed.

Lemma replace_nth_app_length {A} (h t : list A) c :
  replace_nth (h ++ t) (length h) c = h ++ replace_nth t 0 c.
Proof. induction h as [|x h IH]; simpl; [reflexivity|]. rewrite IH. reflexivity. Qed.

Lemma nth_error_app_second {A} (h : list A) a b :
  nth_error (h ++ [a; b]) (S (length h)) = Some b.
Proof. induction h as [|x h IH]; simpl; auto. Qed.

(** A two-element spec whose first element is neither a number nor a
    string falls through every branch of the loop body: nothing is assigned
    and nothing is raised. *)
Lemma norm_spec_unclassified h d x0 x1 :
  py_items h d = inr [x0; x1] -> is_number x0 = false -> is_str x0 = false ->
  norm_spec d h = (inr None, h).
Proof.
  intros Hi Hn Hs.
  assert (Hd : is_distribution d = false) by (destruct d; try reflexivity; discriminate).
  unfold norm_spec. rewrite Hd. unfold bind, items. rewrite Hi. simpl.
  unfold getitem, py_getitem. rewrite Hi. simpl.
  rewrite Hs. destruct x0; try discriminate; reflexivity.
Qed.

(** The grid [[(None, 1)]]: one sub-grid holding one spec whose first
    element is [None]. *)
Definition grid_none_spec : heap :=
  [(SList, [VRef 1]); (SList, [VRef 2]); (STuple, [VOther 0; VInt 1])].

(** C3: [check_grid([[(None, 1)]])] raises nothing: it returns a fresh grid
    [[(None, 1)]] whose only sub-grid still holds the raw spec (the tuple at
    location 2). *)
Lemma check_grid_none_spec_no_error :
  check_grid (VRef 0) grid_none_spec
  = (inr (VRef 3), grid_none_spec ++ [(SList, [VRef 4]); (SList, [VRef 2])]).
Proof. reflexivity. Qed.

(** C3: A two-element spec [d] whose first element is neither a number nor a
    string is left unclassified: the loop body of [check_grid] assigns
    nothing and raises nothing, and [check_grid] on a nested grid [[d]]
    returns a fresh grid whose sub-grid holds [d] itself. *)
Theorem unclassifiable_spec_left_in_grid :
  forall h d x0 x1,
    py_items h d = inr [x0; x1] -> is_number x0 = false -> is_str x0 = false ->
    norm_spec d h = (inr None, h) /\
    (forall lg ls k k',
        nth_error h lg = Some (k, [VRef ls]) -> nth_error h ls = Some (k', [d]) ->
        check_grid (VRef lg) h
        = (inr (VRef (length h)),
           h ++ [(SList, [VRef (S (length h))]); (SList, [d])])).
Proof.
  intros h d x0 x1 Hi Hn Hs. split; [apply (norm_spec_unclassified h d x0 x1); assumption|].
  intros lg ls k k' Hlg Hls.
  assert (Hd : is_number d = false /\ is_str d = false).
  { destruct d; try discriminate; try (split; reflexivity).
    simpl in Hi. destruct s as [|c [|c' [|c'' s]]]; simpl in Hi; try discriminate.
    injection Hi as <- _. discriminate. }
  destruct Hd as [Hdn Hds].
  assert (Llg : (lg < length h)%nat) by (apply nth_error_Some; congruence).
  assert (Lls : (ls < length h)%nat) by (apply nth_error_Some; congruence).
  unfold check_grid, bind at 1, getitem at 1, py_getitem. simpl py_items. rewrite Hlg. simpl.
  unfold bind at 1, flat_test. simpl. unfold bind, getitem, py_getitem. simpl. rewrite Hls. simpl.
  rewrite Hdn, Hds. simpl.
  rewrite nth_error_app1 by exact Llg. rewrite Hlg. simpl.
  unfold bind, ret. cbv beta.
  rewrite nth_error_app1 by exact Lls. rewrite Hls. simpl.
  unfold list_append. rewrite <- app_assoc. simpl.
  rewrite nth_error_app2 by lia. rewrite Nat.sub_diag. simpl.
  rewrite replace_nth_app_length. simpl.
  unfold bind, getitem, py_getitem. simpl.
  rewrite !length_app. simpl. rewrite Nat.add_1_r, nth_error_app_second. simpl.
  rewrite (norm_spec_unclassified _ d x0 x1); [reflexivity| |exact Hn|exact Hs].
  apply py_items_app. exact Hi.
Qed.

(** The flat grid [[(1, 2), (3.0, 5.0)]]. *)
Definition grid_flat : heap :=
  [(SList, [VRef 1; VRef 2]); (STuple, [VInt 1; VInt 2]);
   (STuple, [VFloat 3; VFloat 5])].

(** The nested grid [[[(1, 2)], [(3.0, 5.0)]]]. *)
Definition grid_nested : heap :=
  [(SList, [VRef 1; VRef 2]); (SList, [VRef 3]); (SList, [VRef 4]);
   (STuple, [VInt 1; VInt 2]); (STuple, [VFloat 3; VFloat 5])].

(** The flat grid [[("a", "b", "c")]]. *)
Definition grid_abc : heap :=
  [(SList, [VRef 1]); (STuple, [VStr "a"; VStr "b"; VStr "c"])].

Definition Integer_1_2 : dist := DInteger (VInt 1) (VInt 2) TIdentity (RVRandint 1 2).
Definition Real_3_5 : dist :=
  DReal (VFloat 3) (VFloat 5) TIdentity (RVUniform 3 (5 - 3)%Q).

(** The flat grid becomes one sub-grid [[Integer(1, 2), Real(3.0, 5.0)]]. *)
Lemma check_grid_flat :
  check_grid (VRef 0) grid_flat
  = (inr (VRef 4), grid_flat ++ [(SList, [VRef 0]); (SList, [VRef 5]);
                                 (SList, [VDist Integer_1_2; VDist Real_3_5])]).
Proof. reflexivity. Qed.

(** The nested grid becomes two sub-grids [[Integer(1, 2)]], [[Real(3.0, 5.0)]]. *)
Lemma check_grid_nested :
  check_grid (VRef 0) grid_nested
  = (inr (VRef 5), grid_nested ++ [(SList, [VRef 6; VRef 7]);
                                   (SList, [VDist Integer_1_2]);
                                   (SList, [VDist Real_3_5])]).
Proof. reflexivity. Qed.

(** C5: The classification of [check_grid] fails for categorical specs:
    [check_grid([("a", "b", "c")])] classifies the spec as categorical and
    calls [Categorical("a", "b", "c")], which raises [RuntimeError] (its
    default transformer ['one-hot'] is not recognised), so no grid is
    returned. *)
Theorem check_grid_categorical_spec_RuntimeError :
  fst (check_grid (VRef 0) grid_abc) = inl RuntimeError.
Proof. reflexivity. Qed.

(** *** Empty grids *)

Definition empty_sequence (h : heap) (v : pyval) : Prop :=
  is_sequence v = true /\ py_items h v = inr [].

(** C10: On an empty grid, or on a grid whose first element is an empty
    sequence, [check_grid] raises [IndexError] (at [grid[0]], resp.
    [grid[0][0]]) without touching the heap, and [sample_points] yields no
    tuple and ends with that [IndexError], for every point count and seed. *)
Theorem check_grid_empty_IndexError :
  forall h grid,
    (empty_sequence h grid \/
     exists g0, py_getitem h grid 0 = inr g0 /\ empty_sequence h g0) ->
    check_grid grid h = (inl IndexError, h) /\
    forall mt ud sp_old n_points seed st,
      sample_points mt ud sp_old grid n_points seed h st = ([], Some IndexError, st).
Proof.
  intros h grid Hg.
  assert (Hc : check_grid grid h = (inl IndexError, h)).
  { unfold check_grid, bind at 1, getitem at 1.
    destruct Hg as [[_ He] | (g0 & Hg0 & Hs & He)].
    - unfold py_getitem. rewrite He. reflexivity.
    - rewrite Hg0. unfold bind at 1, flat_test.
      assert (Hd : is_distribution g0 = false) by (destruct g0; try reflexivity; discriminate).
      rewrite Hd, Hs. unfold bind, getitem, py_getitem. rewrite He. reflexivity. }
  split; [exact Hc|]. intros. unfold sample_points. rewrite Hc. reflexivity.
Qed.

(** *** Reproducibility of [sample_points] *)

(** [m] reads and advances only the local generator: its outcome and the
    local generator it leaves do not depend on the global numpy state. *)
Definition local_only {A} (m : M rstates A) : Prop :=
  forall g1 g2 l,
    fst (m (mkRS g1 l)) = fst (m (mkRS g2 l)) /\
    local (snd (m (mkRS g1 l))) = local (snd (m (mkRS g2 l))).

Create HintDb rngfx.

Lemma local_only_ret {A} (x : A) : local_only (ret x).
Proof. intros g1 g2 l; split; reflexivity. Qed.

Lemma local_only_raise {A} e : local_only (@raise rstates A e).
Proof. intros g1 g2 l; split; reflexivity. Qed.

Lemma local_only_lift {A} (r : exc + A) : local_only (lift r).
Proof. intros g1 g2 l; split; reflexivity. Qed.

Lemma local_only_bind {A B} (m : M rstates A) (k : A -> M rstates B) :
  local_only m -> (forall x, local_only (k x)) -> local_only (bind m k).
Proof.
  intros Hm Hk g1 g2 l. unfold bind. destruct (Hm g1 g2 l) as [Ho Hl].
  destruct (m (mkRS g1 l)) as [o1 [gg1 l1]], (m (mkRS g2 l)) as [o2 [gg2 l2]].
  simpl in Ho, Hl. subst o2 l2. destruct o1 as [e|x]; [split; reflexivity|].
  apply Hk.
Qed.

Lemma local_only_draw mt : local_only (draw mt UseLocal).
Proof. intros g1 g2 l; split; reflexivity. Qed.

#[local] Hint Resolve local_only_ret local_only_raise local_only_lift
  local_only_bind local_only_draw : rngfx.

Lemma local_only_rv_draw1 mt ud rv : local_only (rv_draw1 mt ud rv UseLocal).
Proof.
  unfold rv_draw1. apply local_only_bind; [apply local_only_draw|]. intros k.
  destruct rv as [lo sc | lo hi | pk | id]; auto with rngfx.
  destruct (searchsorted pk 0 _ 0); auto with rngfx.
Qed.

Lemma local_only_repeatM {A} n (m : M rstates A) : local_only m -> local_only (repeatM n m).
Proof. intros Hm. induction n as [|n IH]; simpl; auto with rngfx. Qed.

Lemma local_only_sized_draws mt ud rv size : local_only (sized_draws mt ud rv size UseLocal).
Proof.
  destruct size as [n|]; simpl; [|apply local_only_rv_draw1].
  apply local_only_bind; [apply local_only_repeatM, local_only_rv_draw1|auto with rngfx].
Qed.

Lemma local_only_user_frozen_rvs ud id size : local_only (user_frozen_rvs ud id size UseLocal).
Proof.
  intros g1 g2 l. unfold user_frozen_rvs. simpl.
  destruct (user_rvs ud id size l); split; reflexivity.
Qed.

#[local] Hint Resolve local_only_sized_draws local_only_user_frozen_rvs : rngfx.

Lemma local_only_frozen_rvs mt ud rv size : local_only (frozen_rvs mt ud rv size UseLocal).
Proof.
  unfold frozen_rvs. destruct rv as [lo sc | lo hi | pk | id]; [| | |auto with rngfx];
    destruct (rv_argcheck _); auto with rngfx.
  - destruct (Qeq_bool sc 0); auto with rngfx.
  - destruct size as [[|n]|]; auto with rngfx; destruct (randint_inbounds lo hi); auto with rngfx.
Qed.

Lemma local_only_rvs mt ud v size : local_only (rvs mt ud v size UseLocal).
Proof.
  destruct v as [| | | | | [low high tr rv | low high tr rv | cats tr rv] |]; simpl;
    auto with rngfx.
  - unfold Real_rvs. apply local_only_bind; [apply local_only_frozen_rvs|auto with rngfx].
  - unfold Integer_rvs. apply local_only_bind; [apply local_only_frozen_rvs|auto with rngfx].
  - unfold Categorical_rvs. apply local_only_bind; [apply local_only_frozen_rvs|auto with rngfx].
Qed.

Lemma local_only_rvs_old v : local_only (rvs_old v).
Proof. destruct v; simpl; auto with rngfx. Qed.

Lemma local_only_draw_dims mt ud sp dims : local_only (draw_dims mt ud sp dims UseLocal).
Proof.
  induction dims as [|d ds IH]; simpl; auto with rngfx.
  apply local_only_bind; [destruct sp; [apply local_only_rvs_old|apply local_only_rvs]|].
  intros v. apply local_only_bind; auto with rngfx.
Qed.

Lemma local_only_draw_point mt ud sp h grid_ : local_only (draw_point mt ud sp h grid_ UseLocal).
Proof.
  unfold draw_point. destruct (py_items h grid_) as [e|subs]; [auto with rngfx|].
  destruct (Nat.eqb (length subs) 0); [auto with rngfx|].
  apply local_only_bind; [apply local_only_draw|]. intros k.
  destruct (nth_error subs _) as [sub_grid|]; [|auto with rngfx].
  destruct (py_items h sub_grid) as [e|dims]; [auto with rngfx|].
  apply local_only_draw_dims.
Qed.

Lemma points_local_only mt ud sp h grid_ n g1 g2 l :
  fst (points mt ud sp h grid_ UseLocal n (mkRS g1 l))
  = fst (points mt ud sp h grid_ UseLocal n (mkRS g2 l)).
Proof.
  revert g1 g2 l. induction n as [|n IH]; intros g1 g2 l; simpl; [reflexivity|].
  destruct (local_only_draw_point mt ud sp h grid_ g1 g2 l) as [Ho Hl].
  destruct (draw_point mt ud sp h grid_ UseLocal (mkRS g1 l)) as [o1 [gg1 l1]],
           (draw_point mt ud sp h grid_ UseLocal (mkRS g2 l)) as [o2 [gg2 l2]].
  simpl in Ho, Hl. subst o2 l2. destruct o1 as [e|p]; [reflexivity|].
  specialize (IH gg1 gg2 l1).
  destruct (points mt ud sp h grid_ UseLocal n (mkRS gg1 l1)) as [[ps1 e1] s1],
           (points mt ud sp h grid_ UseLocal n (mkRS gg2 l1)) as [[ps2 e2] s2].
  simpl in IH. injection IH as -> ->. reflexivity.
Qed.

(** C6: With an integer seed, everything [sample_points] yields, and the
    exception that ends it if any, is a function of the grid (with the
    objects it refers to), the point count and the seed alone: it does not
    depend on the global numpy random state, nor on the generator
    abstraction [mt] beyond the seeded stream. With scipy >= 0.16 every draw
    is made from [RandomState(seed)]; with scipy < 0.16 the first [dist.rvs()]
    raises before drawing anything. *)
Theorem sample_points_seeded_reproducible :
  forall mt ud sp_old grid n_points s h st1 st2,
    fst (sample_points mt ud sp_old grid n_points (Some s) h st1)
    = fst (sample_points mt ud sp_old grid n_points (Some s) h st2).
Proof.
  intros mt ud sp_old grid n_points s h [g1 l1] [g2 l2]. unfold sample_points.
  destruct (check_grid grid h) as [[e|grid_] h']; [reflexivity|].
  destruct ((0 <=? s) && (s <? 2 ^ 32)); [|reflexivity].
  apply points_local_only.
Qed.

(** A raw stream whose successive draws differ, and a categorical dimension
    over ["a"], ["b"] built with the ['labels'] transformer. *)
Definition mt_demo (s : Z) (i : nat) : Z := Z.of_nat i * 3 * 2 ^ 51.

Definition Categorical_ab : dist :=
  DCategorical [VStr "a"; VStr "b"] TLabelEncoder (RVDiscrete [1 # 2; 1 # 2]).

Definition grid_ab : heap := [(SList, [VDist Categorical_ab])].

(** *** Round trip of the numeric transformers *)

Section RoundTrip.
Import Transformers.
Local Open Scope R_scope.

Lemma Log10_inverse_one (x : R) : 0 < x -> Rpower 10 (log10 x) = x.
Proof.
  intros Hx. unfold Rpower, log10.
  assert (H10 : ln 10 <> 0).
  { apply Rgt_not_eq. rewrite <- ln_1. apply ln_increasing; lra. }
  replace (ln x / ln 10 * ln 10) with (ln x) by (field; exact H10).
  apply exp_ln; exact Hx.
Qed.

(** C7: [inverse_transform] undoes [transform] for [Identity] on every list of
    values, and for [Log] and [Log10] on every list of strictly positive
    values (exactly, over the reals). *)
Theorem transform_roundtrip :
  forall values : list R,
    Identity_inverse_transform (Identity_transform values) = values /\
    (Forall (fun x => 0 < x) values ->
     Log_inverse_transform (Log_transform values) = values /\
     Log10_inverse_transform (Log10_transform values) = values).
Proof.
  intros values. split; [reflexivity|]. intros Hpos.
  unfold Log_inverse_transform, Log_transform, Log10_inverse_transform, Log10_transform.
  rewrite !map_map. split.
  - induction Hpos as [|x xs Hx _ IH]; simpl; [reflexivity|].
    rewrite exp_ln by exact Hx. rewrite IH. reflexivity.
  - induction Hpos as [|x xs Hx _ IH]; simpl; [reflexivity|].
    rewrite Log10_inverse_one by exact Hx. rewrite IH. reflexivity.
Qed.

End RoundTrip.

(** ** Witnesses: the theorems at concrete inputs *)

(** Exact arithmetic for the doubles, and caller variates that return
    [None] without drawing. *)
Definition oracle_demo : oracle :=
  mkOracle (fun loc scale k => loc + scale * (inject_Z k / inject_Z two53))%Q
           (fun _ _ g => (inr (VOther 0), g)).
Definition rs0 : rstates := mkRS (mkRng 0 0) (mkRng 0 0).


Lemma bad_prior_AttributeError_witness :
  Real_init (VFloat 0) (VFloat 1) (PAStr "normal") (TAStr "identity") = inl AttributeError /\
  Integer_init (VInt 0) (VInt 5) (PAStr "normal") (TAStr "identity") = inl AttributeError.
Proof.
  split.
  - apply (bad_prior_AttributeError (VFloat 0) (VFloat 1) (PAStr "normal"));
      [reflexivity | intros id H; discriminate H].
  - apply (bad_prior_AttributeError (VInt 0) (VInt 5) (PAStr "normal"));
      [reflexivity | intros id H; discriminate H].
Defined.

Lemma Integer_uniform_draws_then_NameError_witness :
  (forall size r st v st',
      frozen_rvs mt_demo oracle_demo (RVRandint (inject_Z 1) (inject_Z 3)) size r st
      = (inr v, st') ->
      in_range 1 3 v) /\
  fst (Integer_rvs mt_demo oracle_demo
         (DInteger (VInt 1) (VInt 3) TIdentity (RVRandint (inject_Z 1) (inject_Z 3)))
         (Some 10%nat) UseLocal rs0)
    = inl NameError.
Proof.
  destruct (Integer_uniform_draws_then_NameError mt_demo oracle_demo 1 3
              (TAStr "identity")
              (DInteger (VInt 1) (VInt 3) TIdentity (RVRandint (inject_Z 1) (inject_Z 3)))
              ltac:(lia) eq_refl) as (_ & H2 & _ & H4).
  split; [exact H2 | apply H4; lia].
Defined.

Lemma unclassifiable_spec_left_in_grid_witness :
  norm_spec (VRef 2) grid_none_spec = (inr None, grid_none_spec) /\
  check_grid (VRef 0) grid_none_spec
  = (inr (VRef 3), grid_none_spec ++ [(SList, [VRef 4]); (SList, [VRef 2])]).
Proof.
  destruct (unclassifiable_spec_left_in_grid grid_none_spec (VRef 2) (VOther 0) (VInt 1)
              eq_refl eq_refl eq_refl) as [H1 H2].
  split; [exact H1|]. apply (H2 0%nat 1%nat SList SList); reflexivity.
Defined.

Lemma check_grid_preserves_input_witness :
  (forall l, (l < length grid_flat)%nat ->
     nth_error (grid_flat ++ [(SList, [VRef 0]); (SList, [VRef 5]);
                              (SList, [VDist Integer_1_2; VDist Real_3_5])]) l
     = nth_error grid_flat l) /\
  (forall r, (inr (VRef 4) : exc + pyval) = inr r ->
     exists lg, r = VRef lg /\
       fresh_grid (length grid_flat) lg
         (grid_flat ++ [(SList, [VRef 0]); (SList, [VRef 5]);
                        (SList, [VDist Integer_1_2; VDist Real_3_5])])).
Proof. apply (check_grid_preserves_input (VRef 0) grid_flat). reflexivity. Defined.

Lemma check_grid_empty_IndexError_witness :
  check_grid (VRef 0) [(SList, [])] = (inl IndexError, [(SList, [])]) /\
  check_grid (VRef 0) [(SList, [VRef 1]); (STuple, [])]
    = (inl IndexError, [(SList, [VRef 1]); (STuple, [])]).
Proof.
  split.
  - apply (check_grid_empty_IndexError [(SList, [])] (VRef 0)).
    left. split; reflexivity.
  - apply (check_grid_empty_IndexError [(SList, [VRef 1]); (STuple, [])] (VRef 0)).
    right. exists (VRef 1). split; [reflexivity|]. split; reflexivity.
Defined.

Lemma transform_roundtrip_witness :
  Transformers.Log_inverse_transform (Transformers.Log_transform [1; 2]%R) = [1; 2]%R /\
  Transformers.Log10_inverse_transform (Transformers.Log10_transform [1; 2]%R) = [1; 2]%R.
Proof.
  apply (proj2 (transform_roundtrip [1; 2]%R)).
  repeat constructor; lra.
Defined.

(** ** Further properties *)

(** *** How [check_grid] classifies one spec *)

Lemma py_getitem_first h d x xs : py_items h d = inr (x :: xs) -> py_getitem h d 0 = inr x.
Proof. intros H. unfold py_getitem. rewrite H. reflexivity. Qed.

Lemma py_items_not_dist h d xs : py_items h d = inr xs -> is_distribution d = false.
Proof. destruct d; simpl; try reflexivity; discriminate. Qed.

(** Runs [norm_spec d] on a spec whose items [Hi] gives. *)
Ltac run_norm_spec Hi :=
  unfold norm_spec, bind, items, getitem, py_getitem;
  rewrite (py_items_not_dist _ _ _ Hi); cbv beta iota; rewrite Hi; cbn -[py_items];
  try (rewrite Hi; cbn -[py_items]).

(** A spec of more than two elements, or whose first element is a string,
    is always handed to [Categorical( *dist)] with its default transformer,
    and so raises [RuntimeError]; the heap is left unchanged. *)
Theorem norm_spec_categorical_RuntimeError :
  forall h d args,
    py_items h d = inr args ->
    (2 < length args)%nat \/ (exists s rest, args = VStr s :: rest) ->
    norm_spec d h = (inl RuntimeError, h).
Proof.
  intros h d args Hi Hc. run_norm_spec Hi.
  destruct Hc as [Hc | (s & rest & ->)].
  - destruct args as [|x0 [|x1 [|x2 rest]]]; simpl in Hc; [lia..|reflexivity].
  - destruct rest as [|x1 [|x2 rest]]; cbn -[py_items];
      try (rewrite Hi; cbn -[py_items]); reflexivity.
Qed.

(** A two-element spec [(a, b)] whose first element is an integer becomes
    [Integer(a, b)] with the identity transformer and the uniform prior
    [randint(a, b)] on the bounds as given when [b] is a number; when [b] is
    a string, a list or tuple, a distribution or another non-numeric object
    (not a numpy array), the call raises [TypeError]. *)
Theorem norm_spec_Integer :
  forall h d a b,
    py_items h d = inr [VInt a; b] ->
    (forall hb, to_Q b = Some hb ->
       norm_spec d h
       = (inr (Some (VDist (DInteger (VInt a) b TIdentity (RVRandint (inject_Z a) hb)))), h)) /\
    (to_Q b = None -> (forall xs, b <> VArray xs) -> norm_spec d h = (inl TypeError, h)).
Proof.
  intros h d a b Hi. split.
  - intros hb Hb. run_norm_spec Hi. cbn. rewrite Hb. reflexivity.
  - intros Hb Ha. run_norm_spec Hi. cbn. rewrite Hb.
    destruct b; try discriminate; reflexivity.
Qed.


(** The edges of the classification: a spec that is neither a distribution
    nor iterable (a bare number, [None]) raises [TypeError] at [len(dist)];
    an empty sequence raises [IndexError] at [dist[0]]; a one-element spec
    holding a number raises [TypeError], [Integer] or [Real] missing
    [high]. *)
Theorem norm_spec_edges :
  forall h d,
    (is_distribution d = false -> py_items h d = inl TypeError ->
       norm_spec d h = (inl TypeError, h)) /\
    (py_items h d = inr [] -> norm_spec d h = (inl IndexError, h)) /\
    (forall x, py_items h d = inr [x] -> is_number x = true ->
       norm_spec d h = (inl TypeError, h)).
Proof.
  intros h d. split; [|split].
  - intros Hd Hi. unfold norm_spec. rewrite Hd. unfold bind, items. rewrite Hi. reflexivity.
  - intros Hi. run_norm_spec Hi. reflexivity.
  - intros x Hi Hx. run_norm_spec Hi. destruct x; try discriminate; reflexivity.
Qed.

(** *** Argument checks of the constructors *)

(** The transformer is checked before the prior: [Real] accepts only
    ['identity'], ['log'], ['log10'] or a [TransformerMixin], [Integer] only
    ['identity'] or a [TransformerMixin] (so ['log'] is refused), and
    [Categorical] only ['onehot'], ['labels'] or a [TransformerMixin]; any
    other transformer raises [RuntimeError] whatever the other arguments. *)
Theorem constructors_reject_transformer :
  forall t,
    (forall id, t <> TAMixin id) ->
    (targ_is t "identity" = false ->
       forall low high prior, Integer_init low high prior t = inl RuntimeError) /\
    (targ_is t "identity" = false -> targ_is t "log" = false -> targ_is t "log10" = false ->
       forall low high prior, Real_init low high prior t = inl RuntimeError) /\
    (targ_is t "onehot" = false -> targ_is t "labels" = false ->
       forall categories prior, Categorical_init categories prior t = inl RuntimeError).
Proof.
  intros t Hm. split; [|split].
  - intros Hi low high prior. unfold Integer_init. rewrite Hi.
    destruct t as [s|id|id]; [reflexivity| |reflexivity]. exfalso; exact (Hm id eq_refl).
  - intros Hi Hl Hl10 low high prior. unfold Real_init. rewrite Hi, Hl, Hl10.
    destruct t as [s|id|id]; [reflexivity| |reflexivity]. exfalso; exact (Hm id eq_refl).
  - intros Ho Hl categories prior. unfold Categorical_init. rewrite Ho, Hl.
    destruct t as [s|id|id]; [reflexivity| |reflexivity]. exfalso; exact (Hm id eq_refl).
Qed.

(** The other errors of [Categorical]: the transformer ['onehot'] raises
    [NameError] ([CategoryTransform] is undefined), whatever the prior, for
    categories that are numbers or NUL-free strings (of which
    [np.asarray(categories)] makes an array without error); with the transformer ['labels'] or a [TransformerMixin],
    no categories and no prior raise [ZeroDivisionError]
    ([1. / len(self.categories)]). *)
Theorem Categorical_init_errors :
  (forall categories prior,
     Forall (fun c => is_number c || plain_str c = true) categories ->
     Categorical_init categories prior (TAStr "onehot") = inl NameError) /\
  (forall t, (targ_is t "labels" = true \/ exists id, t = TAMixin id) ->
     Categorical_init [] None t = inl ZeroDivisionError).
Proof.
  split; [intros; reflexivity|].
  intros t [Hl | (id & ->)]; [|reflexivity].
  unfold Categorical_init.
  assert (Ho : targ_is t "onehot" = false).
  { destruct t as [s|id|id]; try discriminate. simpl in Hl |- *.
    apply String.eqb_eq in Hl. subst s. reflexivity. }
  rewrite Ho, Hl. reflexivity.
Qed.

(** *** Draws of the priors *)

Lemma draw_range mt r st k st' : draw mt r st = (inr k, st') -> 0 <= k < two53.
Proof.
  destruct r; unfold draw, raw; intros H; injection H as <- _;
    apply Z.mod_pos_bound; reflexivity.
Qed.

Lemma unit_draw_range k : 0 <= k < two53 ->
  (0 <= inject_Z k / inject_Z two53)%Q /\ (inject_Z k / inject_Z two53 < 1)%Q.
Proof.
  intros Hk. assert (H53 : (0 < inject_Z two53)%Q) by reflexivity. split.
  - apply Qle_shift_div_l; [exact H53|]. rewrite Qmult_0_l.
    change (inject_Z 0 <= inject_Z k)%Q. rewrite <- Zle_Qle. lia.
  - apply Qlt_shift_div_r; [exact H53|]. rewrite Qmult_1_l.
    rewrite <- Zlt_Qlt. lia.
Qed.

(** scipy and numpy check the arguments of a frozen variate before drawing:
    [Real(low, high)] with [high < low] is built without complaint, but its
    [rvs] raises [ValueError] without touching either random generator. So
    does [Integer(low, high)] when [high <= low], or when, for a size other
    than [0], the bounds fail numpy's check after [int()] truncation
    ([Integer(-0.5, 0)], or bounds outside the int64 range). *)
Theorem empty_range_rvs_ValueError :
  (forall mt ud low high lo hi t d size r st,
     to_Q low = Some lo -> to_Q high = Some hi -> (hi < lo)%Q ->
     Real_init low high (PAStr "uniform") t = inr d ->
     Real_rvs mt ud d size r st = (inl ValueError, st)) /\
  (forall mt ud low high lo hi t d size r st,
     to_Q low = Some lo -> to_Q high = Some hi ->
     ((hi <= lo)%Q \/ (randint_inbounds lo hi = false /\ size <> Some 0%nat)) ->
     Integer_init low high (PAStr "uniform") t = inr d ->
     Integer_rvs mt ud d size r st = (inl ValueError, st)).
Proof.
  split.
  - intros mt ud low high lo hi t d size r st Hl Hh Hlt Hd.
    destruct (Real_init_rv _ _ _ _ _ Hd)
      as (l & h & tr & rv & -> & [(lo' & sc & -> & Hl' & hi' & Hh' & ->) | (id & ->)]).
    + rewrite Hl in Hl'; injection Hl' as <-. rewrite Hh in Hh'; injection Hh' as <-.
      assert (Hc : Qle_bool 0 (hi - lo) = false).
      { apply Bool.not_true_iff_false. intros Hb. apply Qle_bool_iff in Hb.
        apply (Qplus_le_r _ _ lo) in Hb. ring_simplify in Hb.
        apply (Qlt_not_le _ _ Hlt). exact Hb. }
      cbn [Real_rvs]. unfold bind, frozen_rvs. cbn [rv_argcheck]. rewrite Hc. reflexivity.
    + exfalso. unfold Real_init in Hd.
      cbn [parg_is String.eqb Ascii.eqb Bool.eqb andb] in Hd. rewrite Hl, Hh in Hd.
      destruct (targ_is t "identity"); [discriminate|].
      destruct (targ_is t "log"); [discriminate|].
      destruct (targ_is t "log10"); [discriminate|].
      destruct t; discriminate.
  - intros mt ud low high lo hi t d size r st Hl Hh Hc Hd.
    assert (Hdef : exists tr, d = DInteger low high tr (RVRandint lo hi)).
    { unfold Integer_init in Hd. rewrite Hl, Hh in Hd.
      assert (Hp : parg_is (PAStr "uniform") "uniform" = true) by reflexivity.
      rewrite Hp in Hd.
      destruct (targ_is t "identity"); [|destruct t; try discriminate];
        injection Hd as <-; eexists; reflexivity. }
    destruct Hdef as (tr & ->). cbn [Integer_rvs]. unfold bind, frozen_rvs. cbn [rv_argcheck].
    destruct (Qle_bool hi lo) eqn:E; [reflexivity|].
    destruct Hc as [Hle | [Hb Hs]].
    + apply Qle_bool_iff in Hle. congruence.
    + simpl negb. cbv iota. destruct size as [[|n]|]; [congruence| |]; rewrite Hb; reflexivity.
Qed.

(** *** Draws of [Categorical] *)


Lemma searchsorted_found p pk acc u i :
  (u <= acc + qsum (p :: pk))%Q ->
  exists j, searchsorted (p :: pk) acc u i = Some j /\ (i <= j <= i + length pk)%nat.
Proof.
  revert p acc i. induction pk as [|p' pk IH]; intros p acc i Hu; simpl.
  - assert (Hb : Qle_bool u (acc + p) = true).
    { apply Qle_bool_iff. simpl in Hu. rewrite Qplus_0_r in Hu. exact Hu. }
    rewrite Hb. exists i; split; [reflexivity|lia].
  - destruct (Qle_bool u (acc + p)) eqn:Hb; [exists i; split; [reflexivity|lia]|].
    destruct (IH p' (acc + p)%Q (S i)) as (j & Hj & Hr).
    + simpl in Hu |- *. setoid_replace (acc + p + (p' + qsum pk))%Q
        with (acc + (p + (p' + qsum pk)))%Q by ring. exact Hu.
    + exists j. split; [exact Hj|lia].
Qed.

Lemma qsum_repeat q n : (qsum (repeat q n) == inject_Z (Z.of_nat n) * q)%Q.
Proof.
  induction n as [|n IH].
  - unfold qsum; simpl. ring.
  - unfold qsum in *. cbn [repeat fold_right]. rewrite IH.
    rewrite Nat2Z.inj_succ, <- Z.add_1_r, inject_Z_plus. ring.
Qed.

(** The default prior [np.tile(1. / n, n)] has total weight 1. *)
Lemma qsum_uniform n : (0 < n)%nat -> (qsum (repeat (1 # Pos.of_nat n) n) == 1)%Q.
Proof.
  intros Hn. rewrite qsum_repeat. unfold Qeq; simpl.
  rewrite <- (positive_nat_Z (Pos.of_nat n)), Nat2Pos.id by lia. lia.
Qed.

Lemma repeatM_length {S A} (m : M S A) n st xs st' :
  repeatM n m st = (inr xs, st') -> length xs = n.
Proof.
  revert st xs st'. induction n as [|n IH]; intros st xs st' E; simpl in E.
  - injection E as <- _. reflexivity.
  - unfold bind in E. destruct (m st) as [[e|x] st2]; [discriminate|].
    destruct (repeatM n m st2) as [[e|ys] st3] eqn:E2; [discriminate|].
    injection E as <- _. simpl. f_equal. eapply IH; eauto.
Qed.

Definition valid_choice (n : nat) (c : pyval) : Prop :=
  exists j, c = VInt (Z.of_nat j) /\ (j < n)%nat.

Lemma category_at_valid cats c :
  valid_choice (length cats) c -> exists x, category_at cats c = inr x /\ In x cats.
Proof.
  intros (j & -> & Hj). simpl. rewrite Nat2Z.id.
  destruct (nth_error cats j) as [x|] eqn:E.
  - exists x. split; [reflexivity|]. eapply nth_error_In; eauto.
  - apply nth_error_None in E. lia.
Qed.

Lemma categories_at_valid cats cs :
  Forall (valid_choice (length cats)) cs ->
  exists ys, categories_at cats cs = inr ys /\ length ys = length cs /\ Forall (fun y => In y cats) ys.
Proof.
  induction 1 as [|c cs Hc Hcs IH]; simpl.
  - exists []. repeat split; constructor.
  - destruct (category_at_valid cats c Hc) as (x & -> & Hx).
    destruct IH as (ys & -> & Hl & Hys).
    exists (x :: ys). repeat split; simpl; auto.
Qed.

(** One draw of [rv_discrete] over the default prior of [n] categories is an
    index below [n]. *)
Lemma uniform_discrete_draw1 mt ud n r st :
  (0 < n)%nat ->
  exists c st', rv_draw1 mt ud (RVDiscrete (repeat (1 # Pos.of_nat n) n)) r st = (inr c, st') /\
                valid_choice n c.
Proof.
  intros Hn. unfold rv_draw1, bind.
  destruct (draw_ok mt r st) as (k & st1 & E). rewrite E.
  destruct (unit_draw_range k (draw_range _ _ _ _ _ E)) as [H0 H1].
  destruct n as [|n']; [lia|].
  destruct (searchsorted_found (1 # Pos.of_nat (S n')) (repeat (1 # Pos.of_nat (S n')) n')
              0 (inject_Z k / inject_Z two53) 0) as (j & Hj & Hr).
  - change ((1 # Pos.of_nat (S n')) :: repeat (1 # Pos.of_nat (S n')) n')
      with (repeat (1 # Pos.of_nat (S n')) (S n')).
    rewrite qsum_uniform by lia. rewrite Qplus_0_l. apply Qlt_le_weak; exact H1.
  - change (repeat (1 # Pos.of_nat (S n')) (S n'))
      with ((1 # Pos.of_nat (S n')) :: repeat (1 # Pos.of_nat (S n')) n').
    rewrite Hj. do 2 eexists. split; [reflexivity|].
    exists j. rewrite repeat_length in Hr. split; [reflexivity|lia].
Qed.

Lemma Categorical_init_uniform cats t d :
  Categorical_init cats None t = inr d -> (0 < length cats)%nat ->
  exists tr, d = DCategorical cats tr
               (RVDiscrete (repeat (1 # Pos.of_nat (length cats)) (length cats))).
Proof.
  intros Hd Hn. unfold Categorical_init in Hd.
  assert (H0 : Nat.eqb (length cats) 0 = false) by (apply Nat.eqb_neq; lia).
  assert (H1 : Nat.eqb (length (repeat (1 # Pos.of_nat (length cats)) (length cats)))
                       (length cats) = true)
    by (rewrite repeat_length; apply Nat.eqb_refl).
  assert (H2 : Qle_bool (Qabs (qsum (repeat (1 # Pos.of_nat (length cats)) (length cats)) - 1))
                        ((1 # 100000) + (1 # 100000000)) = true).
  { apply Qle_bool_iff. rewrite (qsum_uniform (length cats) Hn).
    intros Hc; discriminate Hc. }
  rewrite H0, H1, H2 in Hd. simpl andb in Hd.
  destruct (targ_is t "onehot"); [discriminate|].
  destruct (targ_is t "labels").
  - injection Hd as <-. eauto.
  - destruct t; try discriminate. injection Hd as <-. eauto.
Qed.

(** [Categorical( *categories, transformer=...)] with an accepted
    transformer, no prior and at least one category, every category a
    NUL-free [str] (which [np.asarray] stores as it is), samples without
    error: [rvs()] returns one of the categories, and [rvs(n_samples=n)] an
    array of [n] of them. *)
Theorem Categorical_rvs_members :
  forall mt ud cats t d,
    Forall (fun c => plain_str c = true) cats ->
    (0 < length cats)%nat ->
    Categorical_init cats None t = inr d ->
    (forall r st, exists v st',
        Categorical_rvs mt ud d None r st = (inr v, st') /\ In v cats) /\
    (forall n r st, exists xs st',
        Categorical_rvs mt ud d (Some n) r st = (inr (VArray xs), st') /\
        length xs = n /\ Forall (fun x => In x cats) xs).
Proof.
  intros mt ud cats t d _ Hn Hd.
  destruct (Categorical_init_uniform cats t d Hd Hn) as (tr & ->).
  set (pk := repeat (1 # Pos.of_nat (length cats)) (length cats)).
  split.
  - intros r st. simpl Categorical_rvs. unfold frozen_rvs. cbn [rv_argcheck].
    unfold bind.
    destruct (uniform_discrete_draw1 mt ud (length cats) r st Hn) as (c & st' & E & Hc).
    fold pk in E. rewrite E.
    destruct (category_at_valid cats c Hc) as (x & Ex & Hx).
    exists x, st'. split; [|exact Hx]. unfold lift. simpl.
    destruct c; try (destruct Hc as (? & ? & ?); discriminate). simpl in Ex |- *.
    rewrite Ex. reflexivity.
  - intros n r st. simpl Categorical_rvs. unfold frozen_rvs. cbn [rv_argcheck].
    unfold bind at 2.
    assert (Hok : forall st, exists x st', rv_draw1 mt ud (RVDiscrete pk) r st = (inr x, st')).
    { intros st0. destruct (uniform_discrete_draw1 mt ud (length cats) r st0 Hn)
        as (c & st' & E & _). eauto. }
    destruct (repeatM_ok _ n st Hok) as (cs & st1 & E).
    unfold bind. rewrite E.
    assert (Hv : Forall (valid_choice (length cats)) cs).
    { eapply repeatM_forall; [|exact E]. intros st0 x st2 Hx.
      destruct (uniform_discrete_draw1 mt ud (length cats) r st0 Hn) as (c & st' & E' & Hc).
      fold pk in E'. rewrite E' in Hx. injection Hx as <- _. exact Hc. }
    destruct (categories_at_valid cats cs Hv) as (ys & Ey & Hl & Hys).
    exists ys, st1. unfold ret, lift; simpl. rewrite Ey.
    split; [reflexivity|]. split; [rewrite Hl; eapply repeatM_length; eauto | exact Hys].
Qed.

(** *** What [sample_points] yields *)

(** An entry a dimension can contribute to a yielded tuple: the dimension is
    a [Categorical] and the entry one of its categories (or, for a caller
    supplied prior that draws arrays, an array of them). *)
Definition categorical_entry (d x : pyval) : Prop :=
  exists cats tr rv, d = VDist (DCategorical cats tr rv) /\
    (In x cats \/ exists ys, x = VArray ys /\ Forall (fun y => In y cats) ys).

Lemma category_at_In cats c x : category_at cats c = inr x -> In x cats.
Proof.
  destruct c; simpl; try discriminate.
  destruct (nth_error cats (Z.to_nat z)) eqn:E; intros H; [|discriminate].
  injection H as <-. eapply nth_error_In; eauto.
Qed.

Lemma categories_at_In cats cs ys :
  categories_at cats cs = inr ys -> Forall (fun y => In y cats) ys.
Proof.
  revert ys. induction cs as [|c cs IH]; intros ys H; simpl in H.
  - injection H as <-. constructor.
  - destruct (category_at cats c) as [e|x] eqn:E1; [discriminate|].
    destruct (categories_at cats cs) as [e|xs]; [discriminate|].
    injection H as <-. constructor; [eapply category_at_In; eauto | auto].
Qed.

Lemma rvs_success mt ud d size r st x st' :
  rvs mt ud d size r st = (inr x, st') -> categorical_entry d x.
Proof.
  destruct d as [| | | | | [low high tr rv | low high tr rv | cats tr rv] |];
    simpl; unfold raise; try discriminate.
  - unfold Real_rvs, bind. destruct (frozen_rvs mt ud rv size r st) as [[e|v] s1];
      discriminate.
  - unfold Integer_rvs, bind. destruct (frozen_rvs mt ud rv size r st) as [[e|v] s1];
      discriminate.
  - unfold Categorical_rvs, bind, lift.
    destruct (frozen_rvs mt ud rv size r st) as [[e|c] s1]; [discriminate|].
    intros H. injection H as Hx _. exists cats, tr, rv. split; [reflexivity|].
    unfold index_categories in Hx.
    destruct c as [| | | | cs | |]; try (left; exact (category_at_In cats _ x Hx)).
    right. destruct (categories_at cats cs) as [e|ys] eqn:E; [discriminate|].
    injection Hx as <-. exists ys. split; [reflexivity|]. eapply categories_at_In; eauto.
Qed.

Lemma draw_dims_success mt ud sp dims r st vs st' :
  draw_dims mt ud sp dims r st = (inr vs, st') -> Forall2 categorical_entry dims vs.
Proof.
  revert st vs st'. induction dims as [|d ds IH]; intros st vs st' H; simpl in H.
  - injection H as <- _. constructor.
  - unfold bind in H.
    destruct sp.
    + unfold rvs_old, raise in H. destruct d; try destruct d; discriminate.
    + destruct (rvs mt ud d None r st) as [[e|v] s1] eqn:E1; [discriminate|].
      destruct (draw_dims mt ud false ds r s1) as [[e|ws] s2] eqn:E2; [discriminate|].
      injection H as <- _. constructor; [|eapply IH; eauto].
      eapply rvs_success; eauto.
Qed.

(** The sub-grids of [grid_] whose dimensions are all categorical and give
    the entries of [p], one by one. *)
Definition tuple_of_grid (h : heap) (grid_ : pyval) (p : list pyval) : Prop :=
  exists subs sub_grid dims,
    py_items h grid_ = inr subs /\ In sub_grid subs /\
    py_items h sub_grid = inr dims /\ Forall2 categorical_entry dims p.

Lemma draw_point_success mt ud sp h grid_ r st p st' :
  draw_point mt ud sp h grid_ r st = (inr p, st') -> tuple_of_grid h grid_ p.
Proof.
  unfold draw_point. destruct (py_items h grid_) as [e|subs] eqn:Eg; [discriminate|].
  destruct (Nat.eqb (length subs) 0); [discriminate|].
  unfold bind. destruct (draw mt r st) as [[e|k] s1]; [discriminate|].
  destruct (nth_error subs _) as [sub_grid|] eqn:En; [|discriminate].
  destruct (py_items h sub_grid) as [e|dims] eqn:Ed; [discriminate|].
  intros H. exists subs, sub_grid, dims. repeat split; auto.
  - eapply nth_error_In; eauto.
  - eapply draw_dims_success; eauto.
Qed.

Lemma points_tuples mt ud sp h grid_ r n st p :
  In p (fst (fst (points mt ud sp h grid_ r n st))) -> tuple_of_grid h grid_ p.
Proof.
  revert st. induction n as [|n IH]; intros st; simpl; [tauto|].
  destruct (draw_point mt ud sp h grid_ r st) as [[e|q] s1] eqn:E; [simpl; tauto|].
  specialize (IH s1).
  destruct (points mt ud sp h grid_ r n s1) as [[ps e] s2]. simpl in IH |- *.
  intros [<- | Hp]; [eapply draw_point_success; eauto | auto].
Qed.

(** Every tuple [sample_points] yields comes from one sub-grid of the
    normalized grid, with one entry per dimension; every dimension of that
    sub-grid is a [Categorical], and each entry is one of its categories.
    A sub-grid holding a [Real], an [Integer] or a spec [check_grid] left
    unconverted never yields a point. *)
Theorem sample_points_yields_categories :
  forall mt ud sp grid n_points seed h st p,
    In p (fst (fst (sample_points mt ud sp grid n_points seed h st))) ->
    exists grid_ h', check_grid grid h = (inr grid_, h') /\ tuple_of_grid h' grid_ p.
Proof.
  intros mt ud sp grid n_points seed h st p. unfold sample_points.
  destruct (check_grid grid h) as [[e|grid_] h']; [simpl; tauto|].
  intros Hp. exists grid_, h'. split; [reflexivity|].
  destruct seed as [s|]; [destruct ((0 <=? s) && (s <? 2 ^ 32)); [|simpl in Hp; tauto]|];
    eapply points_tuples; eauto.
Qed.

Lemma points_count_aux mt ud sp h grid_ r n st :
  let '(ps, e, _) := points mt ud sp h grid_ r n st in
  (length ps <= n)%nat /\ (e = None -> length ps = n).
Proof.
  revert st. induction n as [|n IH]; intros st; simpl; [split; [lia|reflexivity]|].
  destruct (draw_point mt ud sp h grid_ r st) as [[e|q] s1]; [simpl; split; [lia|discriminate]|].
  specialize (IH s1). destruct (points mt ud sp h grid_ r n s1) as [[ps e] s2].
  destruct IH as [H1 H2]. simpl. split; [lia|]. intros He. rewrite (H2 He). reflexivity.
Qed.

(** [sample_points] yields at most [n_points] tuples, and exactly
    [n_points] when it ends without an exception. *)
Theorem sample_points_count :
  forall mt ud sp grid n_points seed h st,
    let '(ps, e, _) := sample_points mt ud sp grid n_points seed h st in
    (length ps <= n_points)%nat /\ (e = None -> length ps = n_points).
Proof.
  intros mt ud sp grid n_points seed h st. unfold sample_points.
  destruct (check_grid grid h) as [[e|grid_] h']; [simpl; split; [lia|discriminate]|].
  destruct seed as [s|]; [destruct ((0 <=? s) && (s <? 2 ^ 32));
                          [|simpl; split; [lia|discriminate]]|];
    apply points_count_aux.
Qed.




(** *** The seed of [sample_points] *)

(** A seed outside [0, 2**32) makes [check_random_state] raise
    [ValueError] (after [check_grid], which may raise first): nothing is
    yielded and neither generator moves. *)
Theorem sample_points_bad_seed :
  forall mt ud sp grid n_points s h st,
    ~ (0 <= s < 2 ^ 32) ->
    sample_points mt ud sp grid n_points (Some s) h st =
    ([], Some (match fst (check_grid grid h) with inl e => e | inr _ => ValueError end), st).
Proof.
  intros mt ud sp grid n_points s h st Hs. unfold sample_points.
  destruct (check_grid grid h) as [[e|grid_] h']; [reflexivity|].
  assert (Hb : ((0 <=? s) && (s <? 2 ^ 32)) = false).
  { apply Bool.not_true_iff_false. intros Hb. apply Bool.andb_true_iff in Hb.
    destruct Hb as [H1 H2]. apply Z.leb_le in H1. apply Z.ltb_lt in H2. lia. }
  rewrite Hb. reflexivity.
Qed.

(** [m] never moves the global numpy generator. *)
Definition keeps_glob {A} (m : M rstates A) : Prop :=
  forall st, glob (snd (m st)) = glob st.

Lemma keeps_glob_ret {A} (x : A) : keeps_glob (ret x).
Proof. intros st; reflexivity. Qed.

Lemma keeps_glob_raise {A} e : keeps_glob (@raise rstates A e).
Proof. intros st; reflexivity. Qed.

Lemma keeps_glob_lift {A} (r : exc + A) : keeps_glob (lift r).
Proof. intros st; reflexivity. Qed.

Lemma keeps_glob_bind {A B} (m : M rstates A) (k : A -> M rstates B) :
  keeps_glob m -> (forall x, keeps_glob (k x)) -> keeps_glob (bind m k).
Proof.
  intros Hm Hk st. unfold bind. specialize (Hm st).
  destruct (m st) as [[e|x] st1]; simpl in *; [exact Hm|]. rewrite Hk. exact Hm.
Qed.

Lemma keeps_glob_draw mt : keeps_glob (draw mt UseLocal).
Proof. intros st; reflexivity. Qed.

#[local] Hint Resolve keeps_glob_ret keeps_glob_raise keeps_glob_lift
  keeps_glob_bind keeps_glob_draw : rngfx.

Lemma keeps_glob_rv_draw1 mt ud rv : keeps_glob (rv_draw1 mt ud rv UseLocal).
Proof.
  unfold rv_draw1. apply keeps_glob_bind; [apply keeps_glob_draw|]. intros k.
  destruct rv as [lo sc | lo hi | pk | id]; auto with rngfx.
  destruct (searchsorted pk 0 _ 0); auto with rngfx.
Qed.

Lemma keeps_glob_repeatM {A} n (m : M rstates A) : keeps_glob m -> keeps_glob (repeatM n m).
Proof. intros Hm. induction n as [|n IH]; simpl; auto with rngfx. Qed.

Lemma keeps_glob_sized_draws mt ud rv size : keeps_glob (sized_draws mt ud rv size UseLocal).
Proof.
  destruct size as [n|]; simpl; [|apply keeps_glob_rv_draw1].
  apply keeps_glob_bind; [apply keeps_glob_repeatM, keeps_glob_rv_draw1|auto with rngfx].
Qed.

Lemma keeps_glob_user_frozen_rvs ud id size : keeps_glob (user_frozen_rvs ud id size UseLocal).
Proof.
  intros st. unfold user_frozen_rvs. destruct (user_rvs ud id size (local st)). reflexivity.
Qed.

#[local] Hint Resolve keeps_glob_sized_draws keeps_glob_user_frozen_rvs : rngfx.

Lemma keeps_glob_frozen_rvs mt ud rv size : keeps_glob (frozen_rvs mt ud rv size UseLocal).
Proof.
  unfold frozen_rvs. destruct rv as [lo sc | lo hi | pk | id]; [| | |auto with rngfx];
    destruct (rv_argcheck _); auto with rngfx.
  - destruct (Qeq_bool sc 0); auto with rngfx.
  - destruct size as [[|n]|]; auto with rngfx; destruct (randint_inbounds lo hi); auto with rngfx.
Qed.

Lemma keeps_glob_rvs mt ud v size : keeps_glob (rvs mt ud v size UseLocal).
Proof.
  destruct v as [| | | | | [low high tr rv | low high tr rv | cats tr rv] |]; simpl;
    auto with rngfx.
  - unfold Real_rvs. apply keeps_glob_bind; [apply keeps_glob_frozen_rvs|auto with rngfx].
  - unfold Integer_rvs. apply keeps_glob_bind; [apply keeps_glob_frozen_rvs|auto with rngfx].
  - unfold Categorical_rvs. apply keeps_glob_bind; [apply keeps_glob_frozen_rvs|auto with rngfx].
Qed.

Lemma keeps_glob_rvs_old v : keeps_glob (@rvs_old v).
Proof. destruct v; simpl; auto with rngfx. Qed.

Lemma keeps_glob_draw_dims mt ud sp dims : keeps_glob (draw_dims mt ud sp dims UseLocal).
Proof.
  induction dims as [|d ds IH]; simpl; auto with rngfx.
  apply keeps_glob_bind; [destruct sp; [apply keeps_glob_rvs_old|apply keeps_glob_rvs]|].
  intros v. apply keeps_glob_bind; auto with rngfx.
Qed.

Lemma keeps_glob_draw_point mt ud sp h grid_ : keeps_glob (draw_point mt ud sp h grid_ UseLocal).
Proof.
  unfold draw_point. destruct (py_items h grid_) as [e|subs]; [auto with rngfx|].
  destruct (Nat.eqb (length subs) 0); [auto with rngfx|].
  apply keeps_glob_bind; [apply keeps_glob_draw|]. intros k.
  destruct (nth_error subs _) as [sub_grid|]; [|auto with rngfx].
  destruct (py_items h sub_grid) as [e|dims]; [auto with rngfx|].
  apply keeps_glob_draw_dims.
Qed.

Lemma points_keeps_glob mt ud sp h grid_ n st :
  glob (snd (points mt ud sp h grid_ UseLocal n st)) = glob st.
Proof.
  revert st. induction n as [|n IH]; intros st; simpl; [reflexivity|].
  pose proof (keeps_glob_draw_point mt ud sp h grid_ st) as Hd.
  destruct (draw_point mt ud sp h grid_ UseLocal st) as [[e|p] st1]; simpl in *; [exact Hd|].
  specialize (IH st1). destruct (points mt ud sp h grid_ UseLocal n st1) as [[ps e] st2].
  simpl in *. congruence.
Qed.

(** With an integer seed, [sample_points] leaves the global numpy random
    state exactly as it found it, whatever the grid, the number of points
    and the scipy version. *)
Theorem sample_points_seeded_keeps_global :
  forall mt ud sp_old grid n_points s h st,
    glob (snd (sample_points mt ud sp_old grid n_points (Some s) h st)) = glob st.
Proof.
  intros mt ud sp_old grid n_points s h st. unfold sample_points.
  destruct (check_grid grid h) as [[e|grid_] h']; [reflexivity|].
  destruct ((0 <=? s) && (s <? 2 ^ 32)); [|reflexivity].
  rewrite points_keeps_glob. reflexivity.
Qed.

(** *** [CategoricalEncoder] *)

Module EncoderFacts.
Import Encoder.

Definition slt : string -> string -> Prop := OrderedTypeEx.String_as_OT.lt.

Lemma compare_Lt a b : String.compare a b = Lt -> slt a b.
Proof. apply OrderedTypeEx.String_as_OT.cmp_lt. Qed.

Lemma compare_Gt a b : String.compare a b = Gt -> slt b a.
Proof.
  intros H. apply compare_Lt. rewrite String.compare_antisym, H. reflexivity.
Qed.

Lemma insert_sorted_In v s xs : In v (insert_sorted s xs) <-> In v (s :: xs).
Proof.
  induction xs as [|x xs IH]; simpl; [tauto|].
  destruct (String.compare s x) eqn:E; simpl.
  - apply String.compare_eq_iff in E. subst x.
    split; [intros H; right; exact H | intros [<- | H]; [left; reflexivity | exact H]].
  - tauto.
  - rewrite IH. simpl. tauto.
Qed.

Lemma unique_In v values : In v (unique values) <-> In v values.
Proof.
  induction values as [|x values IH]; simpl; [tauto|].
  rewrite insert_sorted_In. simpl. rewrite IH. tauto.
Qed.

Lemma insert_sorted_HdRel y s xs :
  slt y s -> HdRel slt y xs -> HdRel slt y (insert_sorted s xs).
Proof.
  intros Hys Hxs. destruct xs as [|x xs]; simpl; [constructor; exact Hys|].
  inversion Hxs; subst.
  destruct (String.compare s x); constructor; assumption.
Qed.

Lemma insert_sorted_Sorted s xs : Sorted slt xs -> Sorted slt (insert_sorted s xs).
Proof.
  induction xs as [|x xs IH]; intros Hs; simpl; [constructor; constructor|].
  inversion Hs as [|? ? Hxs Hhd]; subst.
  destruct (String.compare s x) eqn:E.
  - exact Hs.
  - constructor; [exact Hs | constructor; apply compare_Lt; exact E].
  - constructor; [apply IH; exact Hxs|].
    apply insert_sorted_HdRel; [apply compare_Gt; exact E | exact Hhd].
Qed.

Lemma unique_Sorted values : Sorted slt (unique values).
Proof.
  induction values as [|x values IH]; simpl; [constructor|].
  apply insert_sorted_Sorted; exact IH.
Qed.

Lemma StronglySorted_NoDup xs : StronglySorted slt xs -> NoDup xs.
Proof.
  induction 1 as [|x xs Hs IH Hall]; constructor; [|exact IH].
  intros Hin. rewrite Forall_forall in Hall.
  exact (OrderedTypeEx.String_as_OT.lt_not_eq _ _ (Hall x Hin) eq_refl).
Qed.

Lemma index_of_In v xs :
  In v xs -> exists i, index_of v xs = Some i /\ nth_error xs i = Some v.
Proof.
  induction xs as [|x xs IH]; simpl; [tauto|]. intros Hin.
  destruct (String.eqb v x) eqn:E.
  - apply String.eqb_eq in E. subst x. exists O. split; reflexivity.
  - apply String.eqb_neq in E. destruct Hin as [-> | Hin]; [congruence|].
    destruct (IH Hin) as (i & -> & Hi). exists (S i). split; [reflexivity | exact Hi].
Qed.

Lemma index_of_not_In v xs : ~ In v xs -> index_of v xs = None.
Proof.
  induction xs as [|x xs IH]; simpl; [reflexivity|]. intros Hn.
  destruct (String.eqb v x) eqn:E.
  - apply String.eqb_eq in E. subst x. tauto.
  - rewrite IH; [reflexivity | tauto].
Qed.

Lemma one_hot_from n s i :
  (s <= i < s + n)%nat ->
  let row := map (fun j => if Nat.eqb j i then 1 else 0) (seq s n) in
  first_one row = Some (i - s)%nat /\ fold_right Z.add 0 row = 1 /\
  Forall (fun x => x = 0 \/ x = 1) row.
Proof.
  revert s. induction n as [|n IH]; intros s Hs; simpl; [lia|].
  destruct (Nat.eqb s i) eqn:E.
  - apply Nat.eqb_eq in E. subst s. rewrite Nat.sub_diag. simpl.
    assert (Hz : forall m t, (i < t)%nat ->
              let row := map (fun j => if Nat.eqb j i then 1 else 0) (seq t m) in
              fold_right Z.add 0 row = 0 /\ Forall (fun x => x = 0 \/ x = 1) row).
    { induction m as [|m IHm]; intros t Ht; simpl; [split; [reflexivity|constructor]|].
      assert (Hti : Nat.eqb t i = false) by (apply Nat.eqb_neq; lia). rewrite Hti.
      destruct (IHm (S t) ltac:(lia)) as [H1 H2]. split; [rewrite H1; reflexivity|].
      constructor; [left; reflexivity | exact H2]. }
    destruct (Hz n (S i) ltac:(lia)) as [H1 H2]. split; [reflexivity|]. split.
    + rewrite H1. reflexivity.
    + constructor; [right; reflexivity | exact H2].
  - apply Nat.eqb_neq in E.
    assert (Hs' : (S s <= i < S s + n)%nat) by lia.
    destruct (IH (S s) Hs') as (H1 & H2 & H3).
    simpl. rewrite H1, H2. split; [replace (i - s)%nat with (S (i - S s)) by lia; reflexivity|]. split; [reflexivity|].
    constructor; [left; reflexivity | exact H3].
Qed.

Lemma one_hot_row n i :
  (i < n)%nat ->
  length (one_hot n i) = n /\ first_one (one_hot n i) = Some i /\
  fold_right Z.add 0 (one_hot n i) = 1 /\ Forall (fun x => x = 0 \/ x = 1) (one_hot n i).
Proof.
  intros Hi. unfold one_hot. rewrite length_map, length_seq.
  destruct (one_hot_from n 0 i ltac:(lia)) as (H1 & H2 & H3).
  rewrite Nat.sub_0_r in H1. split; [reflexivity|]. split; [exact H1|]. split; assumption.
Qed.

(** [fit(values)] on a non-empty list of NUL-free string labels keeps their
    distinct values, each once, in increasing order (those of [np.unique]);
    fitting on no label raises [ValueError]. *)
Theorem fit_classes :
  forall enc values,
    (values = [] -> fit enc values = inl ValueError) /\
    (values <> [] -> Forall (fun v => nul_free v = true) values ->
       exists classes, fit enc values = inr (Some classes) /\
         (forall v, In v classes <-> In v values) /\ NoDup classes /\ Sorted slt classes).
Proof.
  intros enc values. split; [intros ->; reflexivity|]. intros Hne _.
  exists (Encoder.unique values). split; [destruct values; [contradiction|reflexivity]|].
  split; [intros v; apply unique_In|]. split; [|apply unique_Sorted].
  apply StronglySorted_NoDup, Sorted_StronglySorted; [|apply unique_Sorted].
  exact OrderedTypeEx.String_as_OT.lt_trans.
Qed.

Lemma codes_In classes vs :
  Forall (fun v => In v classes) vs ->
  exists is, codes classes vs = Some is /\
    Forall2 (fun v i => nth_error classes i = Some v) vs is.
Proof.
  induction 1 as [|v vs Hv Hvs IH]; simpl; [exists []; split; constructor|].
  destruct (index_of_In v classes Hv) as (i & -> & Hi).
  destruct IH as (is & -> & His). exists (i :: is). split; [reflexivity|]. constructor; auto.
Qed.

(** After [fit(values)] on NUL-free string labels, [transform(vs)] for a
    non-empty list of labels seen by [fit] gives one row per label; each row has one column per class,
    holds a single [1] among [0]s, and the class in the column of its [1] is
    the label it encodes. *)
Theorem transform_roundtrip_labels :
  forall enc values enc' vs,
    Forall (fun v => nul_free v = true) values ->
    fit enc values = inr enc' ->
    vs <> [] -> Forall (fun v => In v values) vs ->
    exists classes rows,
      enc' = Some classes /\ transform enc' vs = inr rows /\
      map (decode classes) rows = map Some vs /\
      Forall (fun row => length row = length classes /\ fold_right Z.add 0 row = 1 /\
                         Forall (fun x => x = 0 \/ x = 1) row) rows.
Proof.
  intros enc values enc' vs _ Hfit Hne Hvs.
  destruct values as [|v0 values]; [discriminate|].
  assert (Henc : enc' = Some (unique (v0 :: values))) by (injection Hfit; auto).
  subst enc'. set (classes := unique (v0 :: values)).
  assert (Hc : Forall (fun v => In v classes) vs).
  { eapply Forall_impl; [|exact Hvs]. intros v Hv. apply unique_In. exact Hv. }
  destruct (codes_In classes vs Hc) as (is & Hcodes & His).
  exists classes, (map (one_hot (length classes)) is). split; [reflexivity|].
  split.
  - unfold transform. rewrite Hcodes.
    destruct is; [destruct vs; [contradiction|inversion His] | reflexivity].
  - clear Hne Hcodes Hvs Hc. induction His as [|v i vs is Hi His IH]; simpl;
      [split; constructor|].
    assert (Hlt : (i < length classes)%nat)
      by (apply nth_error_Some; rewrite Hi; discriminate).
    destruct (one_hot_row (length classes) i Hlt) as (H1 & H2 & H3 & H4).
    destruct IH as [IH1 IH2]. split.
    + rewrite IH1. unfold decode. rewrite H2, Hi. reflexivity.
    + constructor; [split; [exact H1|split; assumption] | exact IH2].
Qed.

(** [transform] raises [ValueError] on an encoder that was never fitted, on
    an empty list, and, for NUL-free string labels, on any list holding a
    label that [fit] did not see. *)
Theorem transform_ValueError :
  (forall vs, transform CategoricalEncoder_init vs = inl ValueError) /\
  (forall enc, transform enc [] = inl ValueError) /\
  (forall enc values enc' vs v,
     Forall (fun w => nul_free w = true) values -> Forall (fun w => nul_free w = true) vs ->
     fit enc values = inr enc' -> In v vs -> ~ In v values ->
     transform enc' vs = inl ValueError).
Proof.
  split; [intros; reflexivity|]. split.
  - intros [classes|]; reflexivity.
  - intros enc values enc' vs v _ _ Hfit Hv Hnv.
    destruct values as [|v0 values]; [discriminate|].
    assert (Henc : enc' = Some (unique (v0 :: values))) by (injection Hfit; auto).
    subst enc'. unfold transform.
    assert (Hn : ~ In v (unique (v0 :: values))) by (rewrite unique_In; exact Hnv).
    assert (Hcodes : codes (unique (v0 :: values)) vs = None).
    { clear -Hv Hn. induction vs as [|w vs IH]; [destruct Hv|].
      cbn [codes]. destruct Hv as [-> | Hv].
      - rewrite (index_of_not_In _ _ Hn). reflexivity.
      - rewrite (IH Hv). destruct (index_of w _); reflexivity. }
    rewrite Hcodes. reflexivity.
Qed.

End EncoderFacts.

(** *** The grid [check_grid] returns *)

Section CheckGridShape.
Local Open Scope nat_scope.

(** The sub-grids [check_grid] iterates over: [[grid]] when [grid] is flat,
    the items of [grid] otherwise. *)
Definition grid_subs (h : heap) (grid : pyval) : exc + list pyval :=
  match py_getitem h grid 0 with
  | inl e => inl e
  | inr g0 => match fst (flat_test g0 h) with
              | inl e => inl e
              | inr true => inr [grid]
              | inr false => py_items h grid
              end
  end.

(** An entry of a copied sub-grid: the original spec, or a distribution
    that replaced it. *)
Definition entry_rel (x y : pyval) : Prop := y = x \/ is_distribution y = true.

Lemma entry_rel_refl xs : Forall2 entry_rel xs xs.
Proof. induction xs; constructor; [left; reflexivity | assumption]. Qed.

Lemma entry_rel_trans xs ys zs :
  Forall2 entry_rel xs ys -> Forall2 entry_rel ys zs -> Forall2 entry_rel xs zs.
Proof.
  intros H1. revert zs. induction H1 as [|x y xs ys Hxy _ IH]; intros zs H2;
    inversion H2 as [|? z ? zs' Hyz Hr]; subst; constructor; [|apply IH; exact Hr].
  destruct Hyz as [-> | Hz]; [exact Hxy | right; exact Hz].
Qed.

Lemma entry_rel_replace xs i d :
  is_distribution d = true -> Forall2 entry_rel xs (replace_nth xs i d).
Proof.
  intros Hd. revert i. induction xs as [|x xs IH]; intros [|i]; simpl; constructor;
    try (left; reflexivity); try (right; exact Hd); try apply entry_rel_refl; apply IH.
Qed.

Lemma nth_error_replace_nth_eq {A} (xs : list A) l c :
  l < length xs -> nth_error (replace_nth xs l c) l = Some c.
Proof.
  revert l. induction xs as [|x xs IH]; intros [|l] Hl; simpl in *; try lia; auto.
  apply IH. lia.
Qed.

Lemma as_value_dist r h o h' : as_value r h = (inr (Some o), h') -> is_distribution o = true.
Proof. destruct r; simpl; intros H; injection H as <- _ || discriminate; reflexivity. Qed.

Lemma norm_spec_dist d h o h' : norm_spec d h = (inr (Some o), h') -> is_distribution o = true.
Proof.
  unfold norm_spec. destruct (is_distribution d); [discriminate|].
  unfold bind, items. destruct (py_items h d) as [e|args]; [discriminate|].
  destruct (Nat.ltb 2 (length args)); [apply as_value_dist|].
  unfold getitem. destruct (py_getitem h d 0) as [e|x0]; [discriminate|].
  destruct (is_str x0); [apply as_value_dist|].
  destruct x0; try apply as_value_dist; discriminate.
Qed.

(** [norm_loop] on the list at [l] writes only that list, keeps its
    length and kind, and leaves in each slot the spec or a distribution. *)
Lemma norm_loop_shape l i k h kd xs h' :
  nth_error h l = Some (kd, xs) ->
  norm_loop (VRef l) i k h = (inr tt, h') ->
  length h' = length h /\ (forall l', l' <> l -> nth_error h' l' = nth_error h l') /\
  exists ys, nth_error h' l = Some (kd, ys) /\ Forall2 entry_rel xs ys.
Proof.
  revert i h xs h'. induction k as [|k IH]; intros i h xs h' Hl Hn; simpl in Hn.
  - injection Hn as <-. split; [reflexivity|]. split; [reflexivity|].
    exists xs. split; [exact Hl | apply entry_rel_refl].
  - unfold bind at 1, getitem in Hn.
    destruct (py_getitem h (VRef l) i) as [e|d]; [discriminate|].
    unfold bind at 1 in Hn. pose proof (norm_spec_pure d h) as Hp.
    destruct (norm_spec d h) as [[e|[d'|]] h1] eqn:En; simpl in Hp; subst h1; [discriminate| |].
    + pose proof (norm_spec_dist _ _ _ _ En) as Hd.
      unfold bind at 1 in Hn. simpl in Hn. unfold list_setitem in Hn. rewrite Hl in Hn.
      destruct (Nat.ltb i (length xs)); [|discriminate].
      assert (Hlt : l < length h) by (apply nth_error_Some; congruence).
      destruct (IH (S i) _ (replace_nth xs i d') h' ltac:(rewrite nth_error_replace_nth_eq;
                  [reflexivity | exact Hlt]) Hn) as (H1 & H2 & ys & H3 & H4).
      split; [rewrite H1; apply length_replace_nth|]. split.
      * intros l' Hne. rewrite H2 by exact Hne. apply nth_error_replace_nth_neq. congruence.
      * exists ys. split; [exact H3|]. eapply entry_rel_trans; [|exact H4].
        apply entry_rel_replace; exact Hd.
    + unfold bind at 1, ret in Hn. simpl in Hn. eapply IH; eauto.
Qed.

(** One pass of the loop body of [check_grid] on the sub-grid [sub]. *)
Definition grid_body (lg : nat) (sub_grid : pyval) : M heap unit :=
  xs <- items sub_grid;;
  sub_grid_ <- alloc (SList, xs);;
  _ <- append_to (VRef lg) sub_grid_;;
  norm_loop sub_grid_ 0 (length xs).

Lemma Forall2_impl_in {A B} (P Q : A -> B -> Prop) xs ys :
  (forall x y, In x xs -> P x y -> Q x y) -> Forall2 P xs ys -> Forall2 Q xs ys.
Proof.
  intros H HF. induction HF as [|x y xs ys Hxy _ IH]; constructor.
  - apply H; [left; reflexivity | exact Hxy].
  - apply IH. intros x' y' Hx. apply H. right; exact Hx.
Qed.

Lemma grid_body_shape lg sub hc refs hc' :
  nth_error hc lg = Some (SList, refs) ->
  grid_body lg sub hc = (inr tt, hc') ->
  exists xs ys,
    py_items hc sub = inr xs /\
    length hc' = S (length hc) /\
    nth_error hc' lg = Some (SList, refs ++ [VRef (length hc)]) /\
    nth_error hc' (length hc) = Some (SList, ys) /\ Forall2 entry_rel xs ys /\
    (forall l, l < length hc -> l <> lg -> nth_error hc' l = nth_error hc l).
Proof.
  intros Elg H. unfold grid_body, bind at 1, items in H.
  destruct (py_items hc sub) as [e|xs] eqn:Ei; [discriminate|].
  unfold bind at 1, alloc in H. unfold bind at 1 in H. simpl in H. unfold list_append in H.
  assert (Hlg : lg < length hc) by (apply nth_error_Some; congruence).
  rewrite nth_error_app1 in H by exact Hlg. rewrite Elg in H.
  set (hc1 := replace_nth (hc ++ [(SList, xs)]) lg (SList, refs ++ [VRef (length hc)])) in H.
  assert (E1 : nth_error hc1 (length hc) = Some (SList, xs)).
  { subst hc1. rewrite nth_error_replace_nth_neq by lia.
    rewrite nth_error_app2 by lia. rewrite Nat.sub_diag. reflexivity. }
  destruct (norm_loop_shape (length hc) 0 (length xs) hc1 SList xs hc' E1 H)
    as (H1 & H2 & ys & H3 & H4).
  exists xs, ys. split; [reflexivity|].
  assert (Hl1 : length hc1 = S (length hc))
    by (subst hc1; rewrite length_replace_nth, length_app; simpl; lia).
  split; [rewrite H1; exact Hl1|].
  split; [|split; [exact H3|split; [exact H4|]]].
  - rewrite H2 by lia. subst hc1. apply nth_error_replace_nth_eq.
    rewrite length_app. simpl. lia.
  - intros l Hl Hne. rewrite H2 by lia. subst hc1.
    rewrite nth_error_replace_nth_neq by congruence. apply nth_error_app1. exact Hl.
Qed.

Lemma grid_loop_shape lg subs hc refs h' :
  nth_error hc lg = Some (SList, refs) ->
  (forall sub l, In sub subs -> sub = VRef l -> l < length hc /\ l <> lg) ->
  iterM (grid_body lg) subs hc = (inr tt, h') ->
  exists news,
    nth_error h' lg = Some (SList, refs ++ news) /\
    Forall2 (fun sub r => exists l xs ys, r = VRef l /\ length hc <= l /\ l <> lg /\
               py_items hc sub = inr xs /\ nth_error h' l = Some (SList, ys) /\
               Forall2 entry_rel xs ys) subs news /\
    length hc <= length h' /\
    (forall l, l < length hc -> l <> lg -> nth_error h' l = nth_error hc l).
Proof.
  revert hc refs. induction subs as [|sub subs IH]; intros hc refs Elg Hsub H; simpl in H.
  - injection H as <-. exists []. rewrite app_nil_r. repeat split; auto; constructor.
  - unfold bind at 1 in H.
    destruct (grid_body lg sub hc) as [[e|[]] hc1] eqn:Eb; [discriminate|].
    destruct (grid_body_shape lg sub hc refs hc1 Elg Eb)
      as (xs & ys & Ei & Hl1 & Elg1 & Eys & Hr & Hkeep).
    assert (Hlg : lg < length hc) by (apply nth_error_Some; congruence).
    assert (Hsub' : forall s l, In s subs -> s = VRef l -> l < length hc1 /\ l <> lg).
    { intros s l Hs ->. destruct (Hsub (VRef l) l (or_intror Hs) eq_refl). lia. }
    destruct (IH hc1 _ Elg1 Hsub' H) as (news & Hn & HF & Hlen & Hk).
    exists (VRef (length hc) :: news). split; [rewrite Hn, <- app_assoc; reflexivity|].
    split; [|split; [lia|]].
    + constructor.
      * exists (length hc), xs, ys. split; [reflexivity|]. split; [lia|]. split; [lia|].
        split; [exact Ei|]. split; [|exact Hr].
        rewrite Hk by lia. exact Eys.
      * eapply Forall2_impl_in; [|exact HF].
        intros s r Hs (l & xs' & ys' & -> & Hl & Hne & Hi & Hy & Hr').
        exists l, xs', ys'. split; [reflexivity|]. split; [lia|]. split; [exact Hne|].
        split; [|split; assumption].
        destruct s as [| | |ls| | |]; simpl in Hi |- *; try exact Hi.
        destruct (Hsub (VRef ls) ls (or_intror Hs) eq_refl) as [Hls Hne'].
        rewrite <- (Hkeep ls Hls Hne'). exact Hi.
    + intros l Hl Hne. rewrite Hk by lia. apply Hkeep; assumption.
Qed.

Lemma py_items_prefix h ext v :
  (forall l, v = VRef l -> l < length h) -> py_items (h ++ ext) v = py_items h v.
Proof.
  intros Hv. destruct v as [| | |l| | |]; try reflexivity.
  simpl. rewrite nth_error_app1 by (apply Hv; reflexivity). reflexivity.
Qed.

(** [r] is a list of [h'] allocated after [h], holding the items of the
    sub-grid [sub] of [h], each left as it was or replaced by a
    distribution. *)
Definition copy_rel (h h' : heap) (sub r : pyval) : Prop :=
  exists l xs ys, r = VRef l /\ length h <= l /\
    py_items h sub = inr xs /\ py_items h' r = inr ys /\ Forall2 entry_rel xs ys.

Lemma grid_loop_result h ext subs h' :
  (forall sub l, In sub subs -> sub = VRef l -> l < length h) ->
  iterM (grid_body (length (h ++ ext))) subs ((h ++ ext) ++ [(SList, [])]) = (inr tt, h') ->
  exists refs, py_items h' (VRef (length (h ++ ext))) = inr refs /\
    Forall2 (copy_rel h h') subs refs.
Proof.
  intros Hsub H. set (lg := length (h ++ ext)) in *.
  assert (Elg : nth_error ((h ++ ext) ++ [(SList, [])]) lg = Some (SList, [])).
  { unfold lg. rewrite nth_error_app2 by lia. rewrite Nat.sub_diag. reflexivity. }
  assert (Hlen : length h <= lg) by (unfold lg; rewrite length_app; lia).
  destruct (grid_loop_shape lg subs _ [] h' Elg) as (news & Hn & HF & _ & _).
  { intros sub l Hin ->. specialize (Hsub _ l Hin eq_refl).
    rewrite !length_app. simpl. unfold lg in *. rewrite length_app in *. lia. }
  { exact H. }
  exists news. split; [simpl; rewrite Hn; reflexivity|].
  eapply Forall2_impl_in; [|exact HF].
  intros sub r Hin (l & xs & ys & -> & Hl & _ & Hi & Hy & Hr).
  exists l, xs, ys. split; [reflexivity|]. split.
  - rewrite !length_app in Hl. lia.
  - split; [|split; [simpl; rewrite Hy; reflexivity | exact Hr]].
    rewrite <- app_assoc, py_items_prefix in Hi; [exact Hi|].
    intros l' ->. apply (Hsub _ l' Hin eq_refl).
Qed.

(** When [check_grid] returns, its result is a list with one entry per
    sub-grid it iterated over (the grid itself when the grid is flat): a
    fresh list holding the items of that sub-grid, each left as it was or
    replaced by a distribution. This holds for sub-grids that are strings,
    arrays or objects of the caller's heap. *)
Theorem check_grid_shape :
  forall grid h g h' subs,
    check_grid grid h = (inr g, h') ->
    grid_subs h grid = inr subs ->
    (forall sub l, In sub subs -> sub = VRef l -> l < length h) ->
    exists refs, py_items h' g = inr refs /\ Forall2 (copy_rel h h') subs refs.
Proof.
  intros grid h g h' subs Hc Hs Hsub. unfold grid_subs in Hs.
  unfold check_grid, bind at 1, getitem in Hc.
  destruct (py_getitem h grid 0) as [e|g0] eqn:Eg; [discriminate|].
  unfold bind at 1 in Hc. pose proof (flat_test_pure g0 h) as Hp.
  destruct (flat_test g0 h) as [[e|flat] h1] eqn:Ef; simpl in Hp, Hs; subst h1; [discriminate|].
  destruct flat.
  - injection Hs as <-. unfold bind at 1, alloc at 1 in Hc.
    unfold bind at 1, alloc at 1 in Hc. unfold bind at 1, items in Hc.
    assert (Hi : py_items ((h ++ [(SList, [grid])]) ++ [(SList, [])]) (VRef (length h))
                 = inr [grid]).
    { simpl. rewrite nth_error_app1 by (rewrite length_app; simpl; lia).
      rewrite nth_error_app2 by lia. rewrite Nat.sub_diag. reflexivity. }
    rewrite Hi in Hc. unfold bind at 1 in Hc.
    change (iterM ?b [grid] ?hh) with (iterM (grid_body (length (h ++ [(SList, [grid])]))) [grid] hh)
      in Hc.
    destruct (iterM (grid_body (length (h ++ [(SList, [grid])]))) [grid]
                ((h ++ [(SList, [grid])]) ++ [(SList, [])])) as [[e|[]] h3] eqn:Eit;
      [discriminate|].
    unfold ret in Hc. injection Hc as <- <-.
    apply (grid_loop_result h [(SList, [grid])] [grid] h3 Hsub Eit).
  - unfold bind at 1, ret at 1 in Hc.
    unfold bind at 1, alloc at 1 in Hc. unfold bind at 1, items in Hc.
    assert (Hi : py_items (h ++ [(SList, [])]) grid = inr subs)
      by (apply py_items_app; exact Hs).
    rewrite Hi in Hc. unfold bind at 1 in Hc.
    change (iterM ?b subs ?hh) with (iterM (grid_body (length h)) subs hh) in Hc.
    destruct (iterM (grid_body (length h)) subs (h ++ [(SList, [])]))
      as [[e|[]] h3] eqn:Eit; [discriminate|].
    unfold ret in Hc. injection Hc as <- <-.
    pose proof (grid_loop_result h [] subs h3 Hsub) as G. rewrite !app_nil_r in G.
    apply G. exact Eit.
Qed.

End CheckGridShape.

(** *** Witnesses of the further properties *)

Definition spec_abc : heap := [(STuple, [VStr "a"; VStr "b"; VStr "c"])].
Definition spec_int : heap := [(STuple, [VInt 1; VInt 5])].

Lemma norm_spec_categorical_RuntimeError_witness :
  norm_spec (VRef 0) spec_abc = (inl RuntimeError, spec_abc) /\
  norm_spec (VStr "xy") [] = (inl RuntimeError, []).
Proof.
  split.
  - apply (norm_spec_categorical_RuntimeError spec_abc (VRef 0) [VStr "a"; VStr "b"; VStr "c"]);
      [reflexivity | left; simpl; lia].
  - apply (norm_spec_categorical_RuntimeError [] (VStr "xy") [VStr "x"; VStr "y"]);
      [reflexivity | right; exists "x"%string, [VStr "y"]; reflexivity].
Defined.

Definition spec_int_str : heap := [(STuple, [VInt 1; VStr "x"])].

Lemma norm_spec_Integer_witness :
  norm_spec (VRef 0) spec_int
  = (inr (Some (VDist (DInteger (VInt 1) (VInt 5) TIdentity
                                (RVRandint (inject_Z 1) (inject_Z 5))))), spec_int) /\
  norm_spec (VRef 0) spec_int_str = (inl TypeError, spec_int_str).
Proof.
  split.
  - apply (proj1 (norm_spec_Integer spec_int (VRef 0) 1 (VInt 5) eq_refl)). reflexivity.
  - apply (proj2 (norm_spec_Integer spec_int_str (VRef 0) 1 (VStr "x") eq_refl));
      [reflexivity | discriminate].
Defined.


Lemma norm_spec_edges_witness :
  norm_spec (VInt 3) [] = (inl TypeError, []) /\
  norm_spec (VRef 0) [(SList, [])] = (inl IndexError, [(SList, [])]) /\
  norm_spec (VRef 0) [(STuple, [VInt 1])] = (inl TypeError, [(STuple, [VInt 1])]).
Proof.
  split; [|split].
  - apply (proj1 (norm_spec_edges [] (VInt 3))); reflexivity.
  - apply (proj1 (proj2 (norm_spec_edges [(SList, [])] (VRef 0)))); reflexivity.
  - apply (proj2 (proj2 (norm_spec_edges [(STuple, [VInt 1])] (VRef 0))) (VInt 1));
      reflexivity.
Defined.

Lemma constructors_reject_transformer_witness :
  Integer_init (VInt 1) (VInt 5) (PAStr "uniform") (TAStr "log") = inl RuntimeError /\
  Real_init (VInt 1) (VInt 5) (PAStr "uniform") (TAStr "sqrt") = inl RuntimeError /\
  Categorical_init [VStr "a"] None (TAOther 0) = inl RuntimeError.
Proof.
  split; [|split].
  - apply (proj1 (constructors_reject_transformer (TAStr "log") ltac:(discriminate)));
      reflexivity.
  - apply (proj1 (proj2 (constructors_reject_transformer (TAStr "sqrt") ltac:(discriminate))));
      reflexivity.
  - apply (proj2 (proj2 (constructors_reject_transformer (TAOther 0) ltac:(discriminate))));
      reflexivity.
Defined.

Lemma Categorical_init_errors_witness :
  Categorical_init [VStr "a"; VInt 1] None (TAStr "onehot") = inl NameError /\
  Categorical_init [] None (TAStr "labels") = inl ZeroDivisionError /\
  Categorical_init [] None (TAMixin 0) = inl ZeroDivisionError.
Proof.
  split; [apply (proj1 Categorical_init_errors); repeat constructor|].
  split.
  - apply (proj2 Categorical_init_errors (TAStr "labels")). left; reflexivity.
  - apply (proj2 Categorical_init_errors (TAMixin 0)). right; exists 0%nat; reflexivity.
Defined.

Lemma empty_range_rvs_ValueError_witness :
  Real_rvs mt_demo oracle_demo
    (DReal (VInt 3) (VInt 1) TIdentity (RVUniform (inject_Z 3) (inject_Z 1 - inject_Z 3)))
    None UseLocal rs0 = (inl ValueError, rs0) /\
  Integer_rvs mt_demo oracle_demo
    (DInteger (VInt 2) (VInt 2) TIdentity (RVRandint (inject_Z 2) (inject_Z 2)))
    (Some 4%nat) UseGlobal rs0 = (inl ValueError, rs0) /\
  Integer_rvs mt_demo oracle_demo
    (DInteger (VFloat (-1 # 2)) (VInt 0) TIdentity (RVRandint (-1 # 2) (inject_Z 0)))
    None UseGlobal rs0 = (inl ValueError, rs0).
Proof.
  split; [|split].
  - apply (proj1 empty_range_rvs_ValueError mt_demo oracle_demo (VInt 3) (VInt 1)
             (inject_Z 3) (inject_Z 1) (TAStr "identity")); [reflexivity..].
  - apply (proj2 empty_range_rvs_ValueError mt_demo oracle_demo (VInt 2) (VInt 2)
             (inject_Z 2) (inject_Z 2) (TAStr "identity"));
      [reflexivity | reflexivity | left; apply Qle_refl | reflexivity].
  - apply (proj2 empty_range_rvs_ValueError mt_demo oracle_demo (VFloat (-1 # 2)) (VInt 0)
             (-1 # 2) (inject_Z 0) (TAStr "identity"));
      [reflexivity | reflexivity | right; split; [reflexivity | discriminate] | reflexivity].
Defined.

Lemma Categorical_rvs_members_witness :
  exists xs st',
    Categorical_rvs mt_demo oracle_demo
      (DCategorical [VStr "a"; VStr "b"] TLabelEncoder (RVDiscrete [1 # 2; 1 # 2]))
      (Some 3%nat) UseLocal rs0 = (inr (VArray xs), st') /\
    length xs = 3%nat /\ Forall (fun x => In x [VStr "a"; VStr "b"]) xs.
Proof.
  apply (proj2 (Categorical_rvs_members mt_demo oracle_demo [VStr "a"; VStr "b"]
                  (TAStr "labels") _ ltac:(repeat constructor) ltac:(simpl; lia) eq_refl)).
Defined.

Lemma sample_points_yields_categories_witness :
  exists grid_ h',
    check_grid (VRef 0) grid_ab = (inr grid_, h') /\ tuple_of_grid h' grid_ [VStr "b"].
Proof.
  apply (sample_points_yields_categories mt_demo oracle_demo false (VRef 0) 2 (Some 42)
           grid_ab rs0 [VStr "b"]).
  vm_compute. left; reflexivity.
Defined.

Lemma sample_points_count_witness :
  let '(ps, e, _) := sample_points mt_demo oracle_demo false (VRef 0) 3 (Some 7) grid_ab rs0 in
  (length ps <= 3)%nat /\ (e = None -> length ps = 3%nat).
Proof. apply (sample_points_count mt_demo oracle_demo false (VRef 0) 3 (Some 7) grid_ab rs0). Defined.



Lemma sample_points_bad_seed_witness :
  sample_points mt_demo oracle_demo false (VRef 0) 3 (Some (-1)) grid_ab rs0
  = ([], Some ValueError, rs0).
Proof.
  apply (sample_points_bad_seed mt_demo oracle_demo false (VRef 0) 3 (-1) grid_ab rs0). lia.
Defined.

Lemma fit_classes_witness :
  Encoder.fit Encoder.CategoricalEncoder_init [] = inl ValueError /\
  exists classes,
    Encoder.fit Encoder.CategoricalEncoder_init ["b"; "a"; "b"]%string = inr (Some classes) /\
    (forall v, In v classes <-> In v ["b"; "a"; "b"]%string) /\ NoDup classes /\
    Sorted EncoderFacts.slt classes.
Proof.
  split.
  - apply (proj1 (EncoderFacts.fit_classes Encoder.CategoricalEncoder_init [])). reflexivity.
  - apply (proj2 (EncoderFacts.fit_classes Encoder.CategoricalEncoder_init ["b"; "a"; "b"]%string));
      [discriminate | repeat constructor].
Defined.

Lemma transform_roundtrip_labels_witness :
  exists classes rows,
    Some (Encoder.unique ["b"; "a"]%string) = Some classes /\
    Encoder.transform (Some (Encoder.unique ["b"; "a"]%string)) ["a"; "b"; "a"]%string = inr rows /\
    map (Encoder.decode classes) rows = map Some ["a"; "b"; "a"]%string /\
    Forall (fun row => length row = length classes /\ fold_right Z.add 0 row = 1 /\
                       Forall (fun x => x = 0 \/ x = 1) row) rows.
Proof.
  apply (EncoderFacts.transform_roundtrip_labels Encoder.CategoricalEncoder_init ["b"; "a"]%string);
    [repeat constructor | reflexivity | discriminate | repeat constructor; simpl; tauto].
Defined.

Lemma transform_ValueError_witness :
  Encoder.transform Encoder.CategoricalEncoder_init ["a"]%string = inl ValueError /\
  Encoder.transform (Some ["a"]%string) [] = inl ValueError /\
  Encoder.transform (Some (Encoder.unique ["a"; "b"]%string)) ["a"; "c"]%string = inl ValueError.
Proof.
  split; [apply (proj1 EncoderFacts.transform_ValueError)|].
  split; [apply (proj1 (proj2 EncoderFacts.transform_ValueError))|].
  apply (proj2 (proj2 EncoderFacts.transform_ValueError) Encoder.CategoricalEncoder_init
           ["a"; "b"]%string _ ["a"; "c"]%string "c"%string);
    [repeat constructor | repeat constructor | reflexivity | simpl; tauto |].
  simpl. intros [H | [H | []]]; discriminate.
Defined.

Lemma check_grid_shape_witness :
  (exists refs,
     py_items (grid_nested ++ [(SList, [VRef 6; VRef 7]); (SList, [VDist Integer_1_2]);
                               (SList, [VDist Real_3_5])]) (VRef 5) = inr refs /\
     Forall2 (copy_rel grid_nested
                (grid_nested ++ [(SList, [VRef 6; VRef 7]); (SList, [VDist Integer_1_2]);
                                 (SList, [VDist Real_3_5])]))
       [VRef 1; VRef 2] refs) /\
  (exists refs,
     py_items (grid_flat ++ [(SList, [VRef 0]); (SList, [VRef 5]);
                             (SList, [VDist Integer_1_2; VDist Real_3_5])]) (VRef 4) = inr refs /\
     Forall2 (copy_rel grid_flat
                (grid_flat ++ [(SList, [VRef 0]); (SList, [VRef 5]);
                               (SList, [VDist Integer_1_2; VDist Real_3_5])]))
       [VRef 0] refs).
Proof.
  split.
  - apply (check_grid_shape (VRef 0) grid_nested (VRef 5) _ [VRef 1; VRef 2]);
      [reflexivity | reflexivity |].
    intros sub l [<- | [<- | []]] H; injection H as <-; simpl; lia.
  - apply (check_grid_shape (VRef 0) grid_flat (VRef 4) _ [VRef 0]);
      [reflexivity | reflexivity |].
    intros sub l [<- | []] H; injection H as <-; simpl; lia.
Defined.
